(** * go-entity-generator: a shallow embedding of generator.go

    The package streams the result of a keys-only Datastore query as a
    sequence of [Unit]s.  [query] paginates the keys with a cursor and
    turns every key into an entity stub through the caller's [Appender];
    [getMulti] starts one task per chunk that batch-fetches the stubs and
    reconciles the batch error with [filter].

    generator.go is present in two revisions.  The earlier one is kept in
    [Module Rev1] (only its [filter] is needed here); the definitions at
    top level follow the later revision, the one with [query] and
    [getMulti]. *)

From Stdlib Require Import ZArith Lia.
From stdpp Require Import base option list gmap strings.

(** ** Errors

    A Go [error] is an interface value: nil, or a dynamic value of some
    concrete type.  [option error] is the interface value, [None] is nil;
    the constructors are the dynamic types the package tells apart with
    [==] and with type assertions. *)

#[warnings="-register-all"]
Inductive error : Type :=
| Done                                            (* the sentinel datastore.Done *)
| errorString (msg : string)                      (* errors.New(msg) and other opaque errors *)
| ErrFieldMismatch (StructType FieldName Reason : string)
                                                  (* *datastore.ErrFieldMismatch *)
| MultiError (errs : list (option error))         (* appengine.MultiError, a []error *)
| withStack (cause : error).                      (* what errors.WithStack builds *)

(** [errors.WithStack]: nil stays nil, anything else is wrapped. *)
Definition WithStack (err : option error) : option error :=
  match err with
  | None => None
  | Some e => Some (withStack e)
  end.

(** [err == nil]. *)
Definition errIsNil (err : option error) : bool :=
  match err with
  | None => true
  | Some _ => false
  end.

(** [err.(appengine.MultiError)]: the value and the [ok] flag. *)
Definition asMultiError (err : option error) : option (list (option error)) :=
  match err with
  | Some (MultiError mErr) => Some mErr
  | _ => None
  end.

(** [_, ok := err.( *datastore.ErrFieldMismatch)]. *)
Definition isErrFieldMismatch (err : option error) : bool :=
  match err with
  | Some (ErrFieldMismatch _ _ _) => true
  | _ => false
  end.

(** ** Slices

    A slice value is nil or a sequence of elements; [len] of a nil slice is
    0 and [append] to a nil slice allocates. *)

Definition slice (A : Type) : Type := option (list A).

Definition elems {A} (s : slice A) : list A :=
  match s with
  | None => []
  | Some l => l
  end.

Definition len {A} (s : slice A) : nat := length (elems s).

Definition append {A} (s : slice A) (x : A) : slice A := Some (elems s ++ [x]).

(** [make([]T, 0, n)]: empty, not nil. *)
Definition make0 {A} : slice A := Some [].

(** ** The filtering rule *)

Section Filter.

Context {Entity : Type}.

(** The loop of [filter], entered only when [len(entities) == len(mErr)]:
    index [i] runs over both slices in step, so the walk is written on the
    two sequences together.  [None] is the early [return entities, err]. *)
Fixpoint filterLoop (entities : list Entity) (mErr : list (option error))
    (filtered : list Entity) : option (list Entity) :=
  match entities, mErr with
  | e :: entities', None :: mErr' =>
      filterLoop entities' mErr' (filtered ++ [e])
  | _ :: entities', Some x :: mErr' =>
      if isErrFieldMismatch (Some x)
      then filterLoop entities' mErr' filtered
      else None
  | _, _ => Some filtered
  end.

(** [filter], later revision (the second half of generator.go). *)
Definition filter (entities : slice Entity) (err : option error)
    : slice Entity * option error :=
  if (len entities =? 0)%nat || errIsNil err
  then (entities, err)
  else
    match asMultiError err with
    | None => (entities, err)
    | Some mErr =>
        if negb (len entities =? length mErr)%nat
        then (make0, None)
        else
          match filterLoop (elems entities) mErr [] with
          | Some filtered => (Some filtered, None)
          | None => (entities, err)
          end
    end.

End Filter.

(** [filter] as it was in the earlier revision (the first half of
    generator.go): a bare [*datastore.ErrFieldMismatch] is swallowed too.
    The loop is the same text in both revisions. *)
Module Rev1.

Section Filter.

Context {Entity : Type}.

Definition filter (entities : slice Entity) (err : option error)
    : slice Entity * option error :=
  if (len entities =? 0)%nat || errIsNil err
  then (entities, err)
  else
    match asMultiError err with
    | None =>
        if negb (isErrFieldMismatch err)
        then (entities, err)
        else (make0, None)
    | Some mErr =>
        if negb (len entities =? length mErr)%nat
        then (make0, None)
        else
          match filterLoop (elems entities) mErr [] with
          | Some filtered => (Some filtered, None)
          | None => (entities, err)
          end
    end.

End Filter.

End Rev1.

(** ** Options, Units and the outside world *)

Section Pipeline.

(** Keys, entities ([interface{}] values) and query specifications belong
    to the Datastore client; the package never looks inside them. *)
Context {Key Entity QuerySpec : Type}.

Record Unit : Type := mkUnit {
  Entities : slice Entity;
  Err : option error
}.

(** [Appender(ctx, entities, i, k, parentKey)]. *)
Definition AppenderFn : Type :=
  slice Entity -> Z -> Key -> option Key -> slice Entity.

(** Pointer and func fields are nil-able. *)
Record Options : Type := mkOptions {
  Appender : option AppenderFn;
  FetchLimit : Z;
  IgnoreErrFieldMismatch : bool;
  ParentKey : option Key;
  Query : option QuerySpec
}.

Definition defaultFetchLimit : Z := 100.

(** What the collaborators do during one run: the Datastore (through goon)
    and the context.  Pages are numbered from 0 in the order [query] asks
    for them; a cursor is the number of results before it. *)
Record World : Type := mkWorld {
  (* the keys a keys-only run of the query yields, in order *)
  results : QuerySpec -> list Key;
  (* an error t.Next raises on page [p] at index [i], if any *)
  nextFault : nat -> nat -> option error;
  (* an error t.Cursor raises after page [p], if any *)
  cursorFault : nat -> option error;
  (* whether ctx.Done() is closed when page [p] is about to be sent *)
  cancelled : nat -> bool;
  (* the entity g.GetMulti writes in place of a stub *)
  fetch : Entity -> Entity;
  (* the error g.GetMulti returns for a chunk *)
  getMultiErr : list Entity -> option error
}.

(** [t.Next(nil)] for the [i]-th key of a page that starts at [start]. *)
Definition Next (w : World) (q : QuerySpec) (page start i : nat) : Key + error :=
  match nextFault w page i with
  | Some e => inr e
  | None =>
      match results w q !! (start + i)%nat with
      | Some k => inl k
      | None => inr Done
      end
  end.

(** ** The query stage *)

Inductive Page : Type :=
| PageKeys (isDone : bool) (entities : slice Entity)
| PageErr (err : error)
| PagePanic.

(** The inner [for i := 0; i < o.FetchLimit; i++]; [n] is the number of
    iterations left, [FetchLimit - i].  Calling a nil [Appender] panics. *)
Fixpoint nextKeys (w : World) (o : Options) (q : QuerySpec) (page start : nat)
    (n i : nat) (entities : slice Entity) : Page :=
  match n with
  | O => PageKeys false entities
  | S n' =>
      match Next w q page start i with
      | inr Done => PageKeys true entities
      | inr err => PageErr err
      | inl k =>
          match Appender o with
          | None => PagePanic
          | Some f =>
              nextKeys w o q page start n' (S i)
                (f entities (Z.of_nat i) k (ParentKey o))
          end
      end
  end.

(** Where the goroutine of a stage is after some time: still in its loop,
    returned (the deferred [close] has closed its channel), or panicked. *)
Inductive Ending : Type := Running | Closed | Panicked.

(** The outer [for] of [query]: the Units sent on [in] during the first
    [fuel] pages, and where the goroutine is then.  [cur] is nil or a
    cursor. *)
Fixpoint queryLoop (fuel : nat) (w : World) (o : Options) (page : nat)
    (cur : option nat) : list Unit * Ending :=
  match fuel with
  | O => ([], Running)
  | S fuel' =>
      match Query o with
      | None => ([], Panicked)                 (* o.Query.KeysOnly() on nil *)
      | Some q =>
          let start := default 0%nat cur in
          if (FetchLimit o <? 0)%Z
          then ([], Panicked)                  (* make with a negative cap *)
          else
            let limit := Z.to_nat (FetchLimit o) in
            match nextKeys w o q page start limit 0 make0 with
            | PagePanic => ([], Panicked)
            | PageErr err =>
                ([mkUnit None (WithStack (Some err))], Closed)
            | PageKeys isDone entities =>
                let c := if isDone then inl cur
                         else match cursorFault w page with
                              | Some err => inr err
                              | None => inl (Some (start + limit)%nat)
                              end in
                match c with
                | inr err =>
                    ([mkUnit None (WithStack (Some err))], Closed)
                | inl cur' =>
                    if cancelled w page
                    then ([], Closed)
                    else if isDone
                    then ([mkUnit entities None], Closed)
                    else
                      let (us, e) := queryLoop fuel' w o (S page) cur' in
                      (mkUnit entities None :: us, e)
                end
            end
      end
  end.

Definition query (fuel : nat) (w : World) (o : Options) : list Unit * Ending :=
  queryLoop fuel w o 0 None.

(** ** The hydration stage *)

(** [g.GetMulti(entities)]: the stubs are filled in place, so the slice
    keeps its length (and its nil-ness) whatever the error; the result is
    the slice as it is after the call, and the error. *)
Definition GetMulti (w : World) (entities : slice Entity)
    : slice Entity * option error :=
  (option_map (List.map (fetch w)) entities, getMultiErr w (elems entities)).

(** The body of the task [getMulti] starts for a chunk: the Unit it sends
    on [out]. *)
Definition hydrate (w : World) (o : Options) (u : Unit) : Unit :=
  match GetMulti w (Entities u) with
  | (entities, Some err) =>
      if negb (IgnoreErrFieldMismatch o)
      then mkUnit None (WithStack (Some err))
      else
        match filter entities (Some err) with
        | (_, Some err') => mkUnit None (WithStack (Some err'))
        | (filtered, None) => mkUnit filtered None
        end
  | (entities, None) => mkUnit entities (Err u)
  end.

(** Where the goroutine that ranges over [in] stands. *)
Inductive Loop : Type :=
| Ranging                 (* in [for u := range in] *)
| Sending (u : Unit)      (* blocked in [out <- Unit{nil, ...}] for an upstream error *)
| Waiting                 (* returned, in the deferred [wg.Wait()] *)
| Finished.               (* [close(out)] done *)

(** The stage between two rendezvous: what is still to come on [in], the
    loop, the Units the started tasks have not yet sent, and what the
    reader of [out] has received so far. *)
Record Stage : Type := mkStage {
  pending : list Unit;
  loop : Loop;
  inflight : list Unit;
  emitted : list Unit
}.

(** The scheduler's choices.  The tasks and the loop are goroutines that
    all send on the unbuffered [out]; which one gets through next is not
    decided by the program. *)
Inductive Move : Type :=
| Receive              (* the loop takes the next Unit of [in], or sees it closed *)
| Forward              (* the loop's send of an upstream error gets through *)
| Deliver (i : nat)    (* the send of the [i]-th task in flight gets through *)
| Close.               (* [wg.Wait()] returns and [out] is closed *)

Definition step (w : World) (o : Options) (m : Move) (s : Stage) : option Stage :=
  match m, loop s with
  | Receive, Ranging =>
      match pending s with
      | [] => Some (mkStage [] Waiting (inflight s) (emitted s))
      | u :: rest =>
          if negb (errIsNil (Err u))
          then Some (mkStage rest (Sending (mkUnit None (WithStack (Err u))))
                       (inflight s) (emitted s))
          else Some (mkStage rest Ranging (inflight s ++ [hydrate w o u])
                       (emitted s))
      end
  | Forward, Sending u =>
      Some (mkStage (pending s) Waiting (inflight s) (emitted s ++ [u]))
  | Deliver i, l =>
      match inflight s !! i with
      | Some u =>
          Some (mkStage (pending s) l (delete i (inflight s)) (emitted s ++ [u]))
      | None => None
      end
  | Close, Waiting =>
      match inflight s with
      | [] => Some (mkStage (pending s) Finished [] (emitted s))
      | _ :: _ => None
      end
  | _, _ => None
  end.

(** A schedule is a sequence of moves; [None] when one of them is not
    enabled. *)
Fixpoint run (w : World) (o : Options) (ms : list Move) (s : Stage) : option Stage :=
  match ms with
  | [] => Some s
  | m :: ms' =>
      match step w o m s with
      | Some s' => run w o ms' s'
      | None => None
      end
  end.

(** [getMulti(ctx, in, o)] on an input stream that gets closed. *)
Definition getMulti (us : list Unit) : Stage := mkStage us Ranging [] [].

(** ** New *)

(** The caller hands [New] a pointer; the heap holds the Options values
    pointers refer to. *)
Definition New (h : gmap nat Options) (o : option nat) : gmap nat Options * nat :=
  match o with
  | None =>
      let l := fresh (dom h) in
      (<[l := mkOptions None defaultFetchLimit false None None]> h, l)
  | Some l =>
      match h !! l with
      | Some opts =>
          if (FetchLimit opts =? 0)%Z
          then (<[l := mkOptions (Appender opts) defaultFetchLimit
                         (IgnoreErrFieldMismatch opts) (ParentKey opts)
                         (Query opts)]> h, l)
          else (h, l)
      | None => (h, l)
      end
  end.

(** The Options the stages run with: what the pointer [New] ends up with
    refers to. *)
Definition stageOptions (h : gmap nat Options) (o : option nat) : option Options :=
  let (h', l) := New h o in h' !! l.

(** The pipeline [New] returns, for a [query] that has sent all it sends
    within [fuel] pages: [in := query(ctx, o); out := getMulti(ctx, in, o)].
    A panic of a goroutine ends the program, so then there is no stage to
    speak of. *)
Definition pipeline (fuel : nat) (w : World) (h : gmap nat Options)
    (o : option nat) : option Stage :=
  match stageOptions h o with
  | None => None
  | Some opts =>
      match query fuel w opts with
      | (us, Closed) => Some (getMulti us)
      | _ => None
      end
  end.

(** The pipeline under a schedule of its hydration stage. *)
Definition schedule (fuel : nat) (w : World) (h : gmap nat Options)
    (o : option nat) (ms : list Move) : option Stage :=
  match stageOptions h o, pipeline fuel w h o with
  | Some opts, Some s => run w opts ms s
  | _, _ => None
  end.

(** ** Vocabulary of the properties *)

(** What a reader that sums [len(unit.Entities)] over the Units without
    error gets. *)
Definition hydratedCount (us : list Unit) : nat :=
  sum_list_with (fun u => if errIsNil (Err u) then len (Entities u) else 0%nat) us.

(** The Units that carry a chunk, and those whose chunk is not empty. *)
Definition chunkUnits (us : list Unit) : list Unit :=
  List.filter (fun u => errIsNil (Err u)) us.

Definition fullUnits (us : list Unit) : list Unit :=
  List.filter (fun u => errIsNil (Err u) && negb (len (Entities u) =? 0)%nat) us.

(** An error comes alone: no entities next to it. *)
Definition errorAlone (u : Unit) : Prop :=
  (Err u <> None -> Entities u = None) /\ (Entities u <> None -> Err u = None).

(** Nothing follows a Unit with an error. *)
Definition haltsAtError (us : list Unit) : Prop :=
  forall pre u post, us = pre ++ u :: post -> Err u <> None -> post = [].

(** The store and the context stay out of the way of [query]. *)
Definition quiet (w : World) : Prop :=
  (forall p i, nextFault w p i = None) /\
  (forall p, cursorFault w p = None) /\
  (forall p, cancelled w p = false).

(** The shaping function appends exactly one stub per key. *)
Definition appendsOne (f : AppenderFn) : Prop :=
  forall es i k pk, exists x, f es i k pk = append es x.

(** What [getMulti] sends for an input stream, in the order of the input:
    one hydrated Unit per chunk up to the first upstream error, which is
    forwarded and ends the loop. *)
Fixpoint outputs (w : World) (o : Options) (us : list Unit) : list Unit :=
  match us with
  | [] => []
  | u :: rest =>
      if negb (errIsNil (Err u))
      then [mkUnit None (WithStack (Err u))]
      else hydrate w o u :: outputs w o rest
  end.

(** What is still to be started or sent by the loop itself. *)
Definition future (w : World) (o : Options) (s : Stage) : list Unit :=
  match loop s with
  | Ranging => outputs w o (pending s)
  | Sending u => [u]
  | Waiting | Finished => []
  end.

End Pipeline.

Arguments Unit : clear implicits.
Arguments AppenderFn : clear implicits.
Arguments Options : clear implicits.
Arguments World : clear implicits.
Arguments Page : clear implicits.
Arguments Loop : clear implicits.
Arguments Stage : clear implicits.

(** The entities of a chunk whose per-item error is nil, in order. *)
Definition survivors {Entity} (entities : list Entity) (mErr : list (option error))
    : list Entity :=
  fst <$> List.filter (fun p => errIsNil (snd p)) (combine entities mErr).

Definition countMismatch (mErr : list (option error)) : nat :=
  length (List.filter isErrFieldMismatch mErr).

Definition ceilDiv (n c : nat) : nat := ((n + c - 1) / c)%nat.

(** ** Sample data: keys and entities are numbers, as in the tests'
    [[]interface{}{1, 2, 3}], and there is one query. *)

Definition sampleWorld (ks : list nat) (bad : list nat -> option error)
    : World nat nat unit :=
  mkWorld (fun _ => ks) (fun _ _ => None) (fun _ => None) (fun _ => false)
    (fun e => e) bad.

Definition sampleOptions (limit : Z) (ignore : bool)
    : Options nat nat unit :=
  mkOptions (Some (fun es _ k _ => append es k)) limit ignore None (Some tt).

Definition noError : list nat -> option error := fun _ => None.

(** A store whose iterator fails on the second page. *)
Definition secondPageFails (ks : list nat) : World nat nat unit :=
  mkWorld (fun _ => ks)
    (fun p _ => if (p =? 1)%nat then Some (errorString "iterator") else None)
    (fun _ => None) (fun _ => false) (fun e => e) noError.

(** A batch-fetch that fails on the chunk [[1]] only. *)
Definition failsOnFirst : list nat -> option error :=
  fun es => if decide (es = [1%nat]) then Some (errorString "boom") else None.

(** ** The earlier revision of the generator

    The first half of generator.go: one goroutine that calls [process]
    for each page and sends what it returns.  Its Options have no
    ParentKey and its Appender takes no parent key; Units, the store and
    the context are the same. *)
Module Rev1Gen.

Section Generator.

Context {Key Entity QuerySpec : Type}.

Definition AppenderFn : Type := slice Entity -> Z -> Key -> slice Entity.

Record Options : Type := mkOptions {
  Appender : option AppenderFn;
  FetchLimit : Z;
  IgnoreErrFieldMismatch : bool;
  Query : option QuerySpec
}.

(** The keys of one page; an iterator error comes with the entities built
    so far, which [process] returns next to it. *)
Inductive Page : Type :=
| PageKeys (isDone : bool) (entities : slice Entity)
| PageErr (entities : slice Entity) (err : error)
| PagePanic.

(** The [for i := 0; i < o.FetchLimit; i++] of [process]. *)
Fixpoint nextKeys (w : World Key Entity QuerySpec) (o : Options) (q : QuerySpec)
    (page start : nat) (n i : nat) (entities : slice Entity) : Page :=
  match n with
  | O => PageKeys false entities
  | S n' =>
      match Next w q page start i with
      | inr Done => PageKeys true entities
      | inr err => PageErr entities err
      | inl k =>
          match Appender o with
          | None => PagePanic
          | Some f => nextKeys w o q page start n' (S i) (f entities (Z.of_nat i) k)
          end
      end
  end.

(** What a call of [process] comes to: its three results and what the
    cursor [cur] points to holds afterwards, or a panic. *)
Inductive Processed : Type :=
| Returned (cell : option nat) (isDone : bool) (entities : slice Entity)
    (err : option error)
| Panics.

(** [process(ctx, o, cur)].  [cur] is nil ([None]) or points to a cursor;
    [*cur = c] through a nil pointer panics. *)
Definition process (w : World Key Entity QuerySpec) (o : Options) (page : nat)
    (cur : option nat) : Processed :=
  match Query o with
  | None => Panics                             (* o.Query.KeysOnly() on nil *)
  | Some q =>
      let start := default 0%nat cur in
      if (FetchLimit o <? 0)%Z
      then Panics                              (* make with a negative cap *)
      else
        let limit := Z.to_nat (FetchLimit o) in
        match nextKeys w o q page start limit 0 make0 with
        | PagePanic => Panics
        | PageErr entities err => Returned cur false entities (WithStack (Some err))
        | PageKeys isDone entities =>
            let rest (cell : option nat) :=
              if (len entities =? 0)%nat
              then Returned cell true entities None
              else
                match GetMulti w entities with
                | (fetched, Some err) =>
                    if negb (IgnoreErrFieldMismatch o)
                    then Returned cell isDone fetched (WithStack (Some err))
                    else
                      match Rev1.filter fetched (Some err) with
                      | (_, Some err') =>
                          Returned cell isDone fetched (WithStack (Some err'))
                      | (filtered, None) => Returned cell isDone filtered None
                      end
                | (fetched, None) => Returned cell isDone fetched None
                end in
            if isDone
            then rest cur
            else
              match cursorFault w page with
              | Some err => Returned cur false entities (WithStack (Some err))
              | None =>
                  match cur with
                  | None => Panics             (* *cur = c, cur is nil *)
                  | Some _ => rest (Some (start + limit)%nat)
                  end
              end
        end
  end.

(** The goroutine of [New]: the Units sent on [ch] during the first [fuel]
    rounds of the loop, and where the goroutine is then.  [cur] is declared
    and never assigned, so every call of [process] gets nil. *)
Fixpoint generate (fuel : nat) (w : World Key Entity QuerySpec) (o : Options)
    (page : nat) : list (Unit Entity) * Ending :=
  match fuel with
  | O => ([], Running)
  | S fuel' =>
      match process w o page None with
      | Panics => ([], Panicked)
      | Returned _ isDone entities err =>
          if cancelled w page
          then ([], Closed)
          else if negb (errIsNil err) || isDone
          then ([mkUnit entities err], Closed)
          else
            let (us, e) := generate fuel' w o (S page) in
            (mkUnit entities err :: us, e)
      end
  end.

(** The head of [New]: the same normalisation as in the later revision. *)
Definition New (h : gmap nat Options) (o : option nat) : gmap nat Options * nat :=
  match o with
  | None =>
      let l := fresh (dom h) in
      (<[l := mkOptions None defaultFetchLimit false None]> h, l)
  | Some l =>
      match h !! l with
      | Some opts =>
          if (FetchLimit opts =? 0)%Z
          then (<[l := mkOptions (Appender opts) defaultFetchLimit
                         (IgnoreErrFieldMismatch opts) (Query opts)]> h, l)
          else (h, l)
      | None => (h, l)
      end
  end.

(** What the reader of the channel [New] returns gets. *)
Definition stream (fuel : nat) (w : World Key Entity QuerySpec)
    (h : gmap nat Options) (o : option nat) : option (list (Unit Entity) * Ending) :=
  let (h', l) := New h o in
  match h' !! l with
  | Some opts => Some (generate fuel w opts 0)
  | None => None
  end.

End Generator.

Arguments AppenderFn : clear implicits.
Arguments Options : clear implicits.
Arguments Page : clear implicits.
Arguments Processed : clear implicits.

End Rev1Gen.

(** ** More vocabulary *)

(** The stubs an Appender that appends [g i k pk] makes of the keys of a
    page, the first of which has index [i0]. *)
Definition stubs {Key Entity} (g : Z -> Key -> option Key -> Entity)
    (pk : option Key) (i0 : nat) (ks : list Key) : list Entity :=
  imap (fun j k => g (Z.of_nat (i0 + j)) k pk) ks.

(** The keys of page [p] when pages hold [C] keys. *)
Definition pageKeys {Key} (C : nat) (ks : list Key) (p : nat) : list Key :=
  take C (drop (p * C) ks).

(** The entities a tolerant task drops from a chunk. *)
Definition dropped {Key Entity QuerySpec} (w : World Key Entity QuerySpec)
    (u : Unit Entity) : nat :=
  match getMultiErr w (elems (Entities u)) with
  | Some (MultiError mErr) => countMismatch mErr
  | _ => 0%nat
  end.

(** A batch-fetch that fails with field mismatches only: no error, or one
    entry per entity of a chunk that is not empty, each nil or a field
    mismatch. *)
Definition onlyFieldMismatches {Key Entity QuerySpec}
    (w : World Key Entity QuerySpec) : Prop :=
  forall es,
    getMultiErr w es = None \/
    exists mErr,
      getMultiErr w es = Some (MultiError mErr) /\
      es <> [] /\
      length mErr = length es /\
      Forall (fun e => e = None \/ isErrFieldMismatch e = true) mErr.


(** More sample data. *)

Definition sampleRev1Options (limit : Z) (ignore : bool)
    : Rev1Gen.Options nat nat unit :=
  Rev1Gen.mkOptions (Some (fun es _ k => append es k)) limit ignore (Some tt).

(** A batch-fetch that reports a field mismatch for the entity [2]. *)
Definition mismatchOnTwo : list nat -> option error :=
  fun es =>
    if decide (2%nat ∈ es)
    then Some (MultiError
                 ((fun e => if decide (e = 2%nat)
                            then Some (ErrFieldMismatch "testHoge" "OldName" "no such struct field")
                            else None) <$> es))
    else None.

(** A context that is cancelled when the second page is about to be sent. *)
Definition cancelledOnSecondPage (ks : list nat) : World nat nat unit :=
  mkWorld (fun _ => ks) (fun _ _ => None) (fun _ => None)
    (fun p => (p =? 1)%nat) (fun e => e) noError.


(** * Properties *)

(** ** The filtering rule *)

Section FilterFacts.

Context {Entity : Type}.

Implicit Types (entities : slice Entity) (es acc : list Entity)
  (mErr : list (option error)) (err : option error).

(** Over nil and field-mismatch entries only, the loop never gives up and
    keeps the survivors behind what it had. *)
Lemma filterLoop_tolerated es : forall mErr acc,
  length mErr = length es ->
  Forall (fun e => e = None \/ isErrFieldMismatch e = true) mErr ->
  filterLoop es mErr acc = Some (acc ++ survivors es mErr).
Proof.
  induction es as [|e es IH]; intros [|m mErr] acc Hlen Hall; simpl in Hlen; try lia.
  - simpl. unfold survivors. simpl. now rewrite app_nil_r.
  - inversion Hall as [|? ? Hm Hrest]; subst.
    destruct m as [x|].
    + destruct Hm as [Hm|Hm]; [discriminate|].
      destruct x; try discriminate Hm.
      cbn [filterLoop isErrFieldMismatch].
      rewrite IH by (lia || assumption). reflexivity.
    + cbn [filterLoop]. rewrite IH by (lia || assumption).
      unfold survivors. simpl. now rewrite <- app_assoc.
Qed.

Lemma survivors_length es : forall mErr,
  length mErr = length es ->
  Forall (fun e => e = None \/ isErrFieldMismatch e = true) mErr ->
  (length (survivors es mErr) + countMismatch mErr = length es)%nat.
Proof.
  unfold survivors, countMismatch.
  induction es as [|e es IH]; intros [|m mErr] Hlen Hall; simpl in Hlen; try lia.
  - reflexivity.
  - inversion Hall as [|? ? Hm Hrest]; subst.
    specialize (IH mErr ltac:(lia) Hrest).
    rewrite length_fmap in *.
    destruct m as [x|]; simpl.
    + destruct Hm as [Hm|Hm]; [discriminate|].
      destruct x; try discriminate Hm. simpl. lia.
    + simpl. lia.
Qed.

Lemma filter_survivors entities mErr :
  len entities <> 0%nat ->
  length mErr = len entities ->
  Forall (fun e => e = None \/ isErrFieldMismatch e = true) mErr ->
  filter entities (Some (MultiError mErr))
  = (Some (survivors (elems entities) mErr), None).
Proof.
  intros Hne Hlen Hall. unfold filter. cbn [errIsNil asMultiError].
  destruct (Nat.eqb_spec (len entities) 0) as [E|_]; [contradiction|].
  rewrite Hlen, Nat.eqb_refl. cbn [orb negb].
  now rewrite filterLoop_tolerated.
Qed.

(** The earlier revision returns what it was given for every error that is
    neither a MultiError nor a bare field mismatch. *)
Lemma Rev1_filter_keeps_plain_error entities err :
  asMultiError err = None ->
  isErrFieldMismatch err = false ->
  Rev1.filter entities err = (entities, err).
Proof.
  intros Hplain Hfm. unfold Rev1.filter. rewrite Hplain, Hfm.
  now destruct (_ || _).
Qed.

End FilterFacts.

(** C5.  An error that is not an appengine.MultiError (nil included) comes
    back from [filter] as it went in, together with the very same entity
    slice.  [filter] is not told about IgnoreErrFieldMismatch at all, so
    this holds whatever the flag is; the caller, [hydrate], then drops the
    entities and reports that error under either value of the flag. *)
Theorem filter_keeps_plain_error {Key Entity QuerySpec : Type}
    (entities : slice Entity) (err : option error) :
  asMultiError err = None ->
  filter entities err = (entities, err) /\
  forall (w : World Key Entity QuerySpec) (o : Options Key Entity QuerySpec)
         (u : Unit Entity) e,
    err = Some e ->
    getMultiErr w (elems (Entities u)) = err ->
    hydrate w o u = mkUnit None (Some (withStack e)).
Proof.
  intros Hplain. split.
  - unfold filter. rewrite Hplain. now destruct (_ || _).
  - intros w o u e -> Hget. unfold hydrate, GetMulti. rewrite Hget.
    destruct (IgnoreErrFieldMismatch o); simpl; [|reflexivity].
    unfold filter. rewrite Hplain.
    now destruct (_ || _).
Qed.

Lemma filter_keeps_plain_error_witness :
  filter (Some [1%nat]) (Some (errorString "hoge error"))
  = (Some [1%nat], Some (errorString "hoge error")).
Proof.
  refine (proj1 (filter_keeps_plain_error (Key := nat) (QuerySpec := unit)
                   (Some [1%nat]) (Some (errorString "hoge error")) _)).
  reflexivity.
Defined.

(** C6.  A chunk of [n >= 1] entities and a MultiError of the same length
    with [k] field-mismatch entries and nil everywhere else: [filter]
    returns the [n - k] entities whose entry is nil, in their order, and a
    nil error. *)
Theorem filter_drops_field_mismatches {Entity : Type}
    (entities : slice Entity) (mErr : list (option error)) (n k : nat) :
  len entities = n ->
  (1 <= n)%nat ->
  length mErr = n ->
  Forall (fun e => e = None \/ isErrFieldMismatch e = true) mErr ->
  countMismatch mErr = k ->
  filter entities (Some (MultiError mErr))
    = (Some (survivors (elems entities) mErr), None) /\
  length (survivors (elems entities) mErr) = (n - k)%nat.
Proof.
  intros Hn Hpos Hlen Hall Hk. split.
  - apply filter_survivors; [lia|congruence|assumption].
  - pose proof (survivors_length (elems entities) mErr) as Hs.
    unfold len in Hn. rewrite Hn, Hk in Hs.
    specialize (Hs Hlen Hall). lia.
Qed.

Lemma filter_drops_field_mismatches_witness :
  filter (Some [1; 2; 3]%nat)
    (Some (MultiError [None; Some (ErrFieldMismatch "testHoge" "OldName" "no such struct field"); None]))
    = (Some [1; 3]%nat, None) /\
  length [1; 3]%nat = (3 - 1)%nat.
Proof.
  apply (filter_drops_field_mismatches (Some [1; 2; 3]%nat)
           [None; Some (ErrFieldMismatch "testHoge" "OldName" "no such struct field"); None]
           3 1).
  - reflexivity.
  - lia.
  - reflexivity.
  - repeat (constructor; [first [left; reflexivity | right; reflexivity]|]).
    constructor.
  - reflexivity.
Defined.

(** C7.  A chunk that is not empty and a MultiError of another length:
    [filter] returns an empty chunk and a nil error. *)
Theorem filter_drops_misaligned_batch {Entity : Type}
    (entities : slice Entity) (mErr : list (option error)) :
  len entities <> 0%nat ->
  length mErr <> len entities ->
  filter entities (Some (MultiError mErr)) = (Some [], None).
Proof.
  intros Hne Hlen. unfold filter.
  destruct (Nat.eqb_spec (len entities) 0) as [E|_]; [contradiction|].
  cbn [orb errIsNil asMultiError].
  destruct (Nat.eqb_spec (len entities) (length mErr)) as [E|_]; [congruence|].
  reflexivity.
Qed.

Lemma filter_drops_misaligned_batch_witness :
  filter (Some [1; 2; 3]%nat) (Some (MultiError [Some (errorString "hoge error")]))
  = (Some [], None).
Proof.
  apply (filter_drops_misaligned_batch (Some [1; 2; 3]%nat)
           [Some (errorString "hoge error")]); unfold len; simpl; lia.
Defined.

(** C9.  The two revisions of [filter] are different functions.  On a
    chunk that is not empty and a bare [*datastore.ErrFieldMismatch] the
    earlier one answers with an empty chunk and a nil error, the later one
    with the chunk and the error it was given.  On every MultiError they
    agree. *)
Theorem filter_revisions_compared :
  @Rev1.filter nat <> @filter nat /\
  (forall {Entity : Type} (e : Entity) (es : list Entity) (st fn rs : string),
     Rev1.filter (Some (e :: es)) (Some (ErrFieldMismatch st fn rs))
       = (Some [], None) /\
     filter (Some (e :: es)) (Some (ErrFieldMismatch st fn rs))
       = (Some (e :: es), Some (ErrFieldMismatch st fn rs))) /\
  (forall {Entity : Type} (entities : slice Entity) (mErr : list (option error)),
     Rev1.filter entities (Some (MultiError mErr))
       = filter entities (Some (MultiError mErr))).
Proof.
  split; [|split].
  - intros Heq.
    pose proof (f_equal (fun f => f (Some [1%nat]) (Some (ErrFieldMismatch "" "" ""))) Heq) as H.
    discriminate H.
  - intros Entity e es st fn rs. split; reflexivity.
  - intros Entity entities mErr. unfold Rev1.filter, filter.
    destruct (_ || _); reflexivity.
Qed.

(** ** The query stage *)

Section QueryFacts.

Context {Key Entity QuerySpec : Type}.

Implicit Types (w : World Key Entity QuerySpec) (o : Options Key Entity QuerySpec)
  (q : QuerySpec) (u : Unit Entity) (us : list (Unit Entity))
  (entities : slice Entity).

Lemma hydratedCount_cons u us :
  hydratedCount (u :: us)
  = ((if errIsNil (Err u) then len (Entities u) else 0) + hydratedCount us)%nat.
Proof. reflexivity. Qed.

Lemma hydratedCount_app us1 us2 :
  hydratedCount (us1 ++ us2) = (hydratedCount us1 + hydratedCount us2)%nat.
Proof. apply sum_list_with_app. Qed.

Lemma fullUnits_chunk entities us :
  fullUnits (mkUnit entities None :: us)
  = if (len entities =? 0)%nat then fullUnits us
    else mkUnit entities None :: fullUnits us.
Proof. unfold fullUnits. cbn. now destruct (len entities =? 0)%nat. Qed.

(** A page that was filled without meeting the end took [n] keys that
    exist. *)
Lemma nextKeys_full w o q page start n : forall i entities ents,
  nextKeys w o q page start n i entities = PageKeys false ents ->
  (0 < n)%nat ->
  (start + i + n <= length (results w q))%nat.
Proof.
  induction n as [|n IH]; intros i entities ents H Hn; [lia|].
  cbn [nextKeys] in H. unfold Next in H.
  destruct (nextFault w page i) as [e|].
  { destruct e; discriminate. }
  destruct (results w q !! (start + i)%nat) as [k|] eqn:Hk; [|discriminate].
  apply lookup_lt_Some in Hk.
  destruct (Appender o) as [f|]; [|discriminate].
  destruct n as [|n]; [lia|].
  apply IH in H; lia.
Qed.

(** With a chunk size of at least one the loop of [query] ends, whatever
    the store and the context do: every page but the last moves the cursor
    forward. *)
Lemma queryLoop_ends w o : forall fuel page cur,
  (0 < FetchLimit o)%Z ->
  (forall q, Query o = Some q ->
     (length (results w q) - default 0%nat cur < fuel)%nat) ->
  (0 < fuel)%nat ->
  snd (queryLoop fuel w o page cur) <> Running.
Proof.
  induction fuel as [|fuel IH]; intros page cur Hpos Hfuel Hgt; [lia|].
  cbn [queryLoop].
  destruct (Query o) as [q|] eqn:Hq; [|discriminate].
  specialize (Hfuel q eq_refl).
  destruct (Z.ltb_spec (FetchLimit o) 0); [lia|].
  destruct (nextKeys w o q page (default 0%nat cur) (Z.to_nat (FetchLimit o)) 0 make0)
    as [isDone ents|err|] eqn:Hpage; [|discriminate|discriminate].
  destruct isDone.
  - destruct (cancelled w page); discriminate.
  - destruct (cursorFault w page); [discriminate|].
    destruct (cancelled w page); [discriminate|].
    apply nextKeys_full in Hpage; [|lia].
    specialize (IH (S page) (Some (default 0%nat cur + Z.to_nat (FetchLimit o))%nat)).
    destruct (queryLoop fuel w o _ _) as [us e]. cbn [snd] in *.
    apply IH.
    + assumption.
    + intros q' [= <-]. simpl. lia.
    + lia.
Qed.

(** Only the last Unit [query] sends can carry an error. *)
Lemma queryLoop_haltsAtError w o : forall fuel page cur,
  haltsAtError (fst (queryLoop fuel w o page cur)).
Proof.
  assert (Hone : forall u, haltsAtError [u]).
  { intros u pre x post Heq _.
    destruct pre as [|y pre]; [now injection Heq|].
    destruct pre; discriminate. }
  assert (Hnil : haltsAtError (@nil (Unit Entity))).
  { intros pre x post Heq. destruct pre; discriminate. }
  induction fuel as [|fuel IH]; intros page cur; [exact Hnil|].
  cbn [queryLoop].
  destruct (Query o) as [q|]; [|exact Hnil].
  destruct (FetchLimit o <? 0)%Z; [exact Hnil|].
  destruct (nextKeys _ _ _ _ _ _ _ _) as [isDone ents|err|];
    [|apply Hone|exact Hnil].
  destruct isDone.
  - destruct (cancelled w page); [exact Hnil|apply Hone].
  - destruct (cursorFault w page); [apply Hone|].
    destruct (cancelled w page); [exact Hnil|].
    specialize (IH (S page) (Some (default 0%nat cur + Z.to_nat (FetchLimit o))%nat)).
    destruct (queryLoop fuel w o _ _) as [us' e']. cbn [fst] in *.
    intros pre x post Heq Herr.
    destruct pre as [|y pre]; simplify_eq/=; try done.
    eapply IH; eauto.
Qed.

(** A Unit of [query] has entities or an error, never both. *)
Lemma queryLoop_errorAlone w o : forall fuel page cur,
  Forall errorAlone (fst (queryLoop fuel w o page cur)).
Proof.
  assert (Herr : forall err, errorAlone (mkUnit (@None (list Entity)) (WithStack (Some err)))).
  { intros err. split; simpl; congruence. }
  assert (Hok : forall ents : slice Entity, errorAlone (mkUnit ents None)).
  { intros ents. split; simpl; congruence. }
  induction fuel as [|fuel IH]; intros page cur; [constructor|].
  cbn [queryLoop].
  destruct (Query o) as [q|]; [|constructor].
  destruct (FetchLimit o <? 0)%Z; [constructor|].
  destruct (nextKeys _ _ _ _ _ _ _ _) as [isDone ents|err|];
    [|repeat first [apply Herr | constructor]|constructor].
  destruct isDone.
  - destruct (cancelled w page); repeat first [apply Hok | constructor].
  - destruct (cursorFault w page); [repeat first [apply Herr | constructor]|].
    destruct (cancelled w page); [constructor|].
    specialize (IH (S page) (Some (default 0%nat cur + Z.to_nat (FetchLimit o))%nat)).
    destruct (queryLoop fuel w o _ _) as [us' e']. cbn [fst] in *.
    constructor; [apply Hok|exact IH].
Qed.

(** Once the goroutine is out of its loop, more fuel changes nothing. *)
Lemma queryLoop_fuel_mono w o : forall fuel fuel' page cur,
  snd (queryLoop fuel w o page cur) <> Running ->
  (fuel <= fuel')%nat ->
  queryLoop fuel' w o page cur = queryLoop fuel w o page cur.
Proof.
  induction fuel as [|fuel IH]; intros fuel' page cur H Hle; [now cbn in H|].
  destruct fuel' as [|fuel']; [lia|].
  cbn [queryLoop] in *.
  destruct (Query o) as [q|]; [|reflexivity].
  destruct (FetchLimit o <? 0)%Z; [reflexivity|].
  destruct (nextKeys _ _ _ _ _ _ _ _) as [isDone ents|err|]; try reflexivity.
  destruct isDone; [reflexivity|].
  destruct (cursorFault w page); [reflexivity|].
  destruct (cancelled w page); [reflexivity|].
  specialize (IH fuel' (S page) (Some (default 0%nat cur + Z.to_nat (FetchLimit o))%nat)).
  destruct (queryLoop fuel w o _ _) as [us e]. cbn [snd] in *.
  rewrite IH by (assumption || lia). reflexivity.
Qed.

(** *** Pagination when nothing goes wrong *)

Section Quiet.

Variables (w : World Key Entity QuerySpec) (o : Options Key Entity QuerySpec)
  (q : QuerySpec) (f : AppenderFn Key Entity) (C : nat).

Hypothesis Hquiet : quiet w.
Hypothesis Hquery : Query o = Some q.
Hypothesis Happender : Appender o = Some f.
Hypothesis Hone : appendsOne f.
Hypothesis Hlimit : FetchLimit o = Z.of_nat C.
Hypothesis Hpos : (1 <= C)%nat.

Let N := length (results w q).

(** One page: [n] more keys if there are that many, else what is left and
    the end of the results. *)
Lemma nextKeys_quiet page start n : forall i entities,
  (start + i <= N)%nat ->
  exists ents,
    nextKeys w o q page start n i entities
      = PageKeys (negb (start + i + n <=? N)%nat) ents /\
    len ents = (len entities + Nat.min n (N - (start + i)))%nat.
Proof.
  destruct Hquiet as (Hnext & _ & _).
  induction n as [|n IH]; intros i entities Hi.
  - exists entities. cbn [nextKeys].
    destruct (Nat.leb_spec (start + i + 0) N); [|lia].
    split; [reflexivity|lia].
  - cbn [nextKeys]. unfold Next. rewrite Hnext, Happender.
    destruct (results w q !! (start + i)%nat) as [k|] eqn:Hk.
    + apply lookup_lt_Some in Hk. fold N in Hk.
      destruct (Hone entities (Z.of_nat i) k (ParentKey o)) as [x ->].
      destruct (IH (S i) (append entities x)) as (ents & -> & Hlen); [lia|].
      exists ents. split.
      * do 2 f_equal. destruct (Nat.leb_spec (start + S i + n) N);
          destruct (Nat.leb_spec (start + i + S n) N); (reflexivity || lia).
      * rewrite Hlen. unfold len, append. cbn [elems].
        rewrite length_app. cbn [length]. lia.
    + apply lookup_ge_None in Hk. fold N in Hk.
      exists entities. split.
      * destruct (Nat.leb_spec (start + i + S n) N); [lia|reflexivity].
      * lia.
Qed.

Lemma div_step m : (C <= m)%nat -> (m / C = (m - C) / C + 1)%nat.
Proof.
  intros H. replace m with ((m - C) + 1 * C)%nat at 1 by lia.
  apply Nat.div_add. lia.
Qed.

Lemma ceilDiv_step m : (C <= m)%nat -> ceilDiv m C = (ceilDiv (m - C) C + 1)%nat.
Proof.
  intros H. unfold ceilDiv.
  replace (m + C - 1)%nat with ((m - C + C - 1) + 1 * C)%nat by lia.
  apply Nat.div_add. lia.
Qed.

Lemma ceilDiv_small m : (m < C)%nat -> ceilDiv m C = if (m =? 0)%nat then 0%nat else 1%nat.
Proof.
  intros H. unfold ceilDiv. destruct (Nat.eqb_spec m 0) as [->|Hm].
  - apply Nat.div_small. lia.
  - replace (m + C - 1)%nat with ((m - 1) + 1 * C)%nat by lia.
    rewrite Nat.div_add by lia. rewrite Nat.div_small by lia. reflexivity.
Qed.

(** The stream of [query] from a cursor on: every Unit carries a chunk,
    there are [floor((N - start) / C) + 1] of them, they hold the
    [N - start] remaining stubs, and [ceil((N - start) / C)] of them are
    not empty. *)
Lemma queryLoop_quiet : forall fuel page cur,
  let start := default 0%nat cur in
  (start <= N)%nat ->
  ((N - start) / C < fuel)%nat ->
  exists us,
    queryLoop fuel w o page cur = (us, Closed) /\
    Forall (fun u => Err u = None) us /\
    length us = ((N - start) / C + 1)%nat /\
    hydratedCount us = (N - start)%nat /\
    length (fullUnits us) = ceilDiv (N - start) C.
Proof.
  destruct Hquiet as (_ & Hcursor & Hcancel).
  induction fuel as [|fuel IH]; intros page cur start Hstart Hfuel; [lia|].
  cbn [queryLoop]. rewrite Hquery, Hlimit.
  destruct (Z.ltb_spec (Z.of_nat C) 0); [lia|].
  rewrite Nat2Z.id. fold start.
  destruct (nextKeys_quiet page start C 0 make0) as (ents & -> & Hlen); [lia|].
  rewrite Nat.add_0_r in *. change (len make0) with 0%nat in Hlen.
  rewrite Hcancel.
  destruct (Nat.leb_spec (start + C) N) as [Hfull|Hlast]; cbn [negb].
  - rewrite Hcursor.
    destruct (IH (S page) (Some (start + C)%nat)) as (us & -> & Hok & Hn & Hsum & Hfullu).
    { simpl. lia. }
    { simpl. rewrite (div_step (N - start)) in Hfuel by lia.
      replace (N - (start + C))%nat with (N - start - C)%nat by lia. lia. }
    simpl in Hn, Hsum, Hfullu.
    replace (N - (start + C))%nat with (N - start - C)%nat in * by lia.
    eexists. split; [reflexivity|]. split; [|split; [|split]].
    + constructor; [reflexivity|assumption].
    + simpl. rewrite Hn. rewrite (div_step (N - start)) by lia. lia.
    + rewrite hydratedCount_cons, Hsum. cbn [Err Entities errIsNil]. lia.
    + rewrite fullUnits_chunk.
      destruct (Nat.eqb_spec (len ents) 0) as [E|_]; [lia|].
      cbn [length]. rewrite Hfullu, (ceilDiv_step (N - start)) by lia. lia.
  - eexists. split; [reflexivity|]. split; [|split; [|split]].
    + constructor; [reflexivity|constructor].
    + simpl. rewrite Nat.div_small by lia. reflexivity.
    + rewrite hydratedCount_cons. cbn [Err Entities errIsNil].
      change (hydratedCount []) with 0%nat. lia.
    + rewrite fullUnits_chunk, ceilDiv_small by lia.
      replace (len ents) with (N - start)%nat by lia.
      destruct (N - start =? 0)%nat; reflexivity.
Qed.

End Quiet.

End QueryFacts.

(** ** The hydration stage *)

Section StageFacts.

Context {Key Entity QuerySpec : Type}.

Variables (w : World Key Entity QuerySpec) (o : Options Key Entity QuerySpec).

Implicit Types (u : Unit Entity) (us : list (Unit Entity)) (s : Stage Entity)
  (m : Move) (ms : list Move).

(** No move makes a Unit appear or disappear: each one is on its way
    from [pending] through [inflight] to [emitted]. *)
Lemma step_conserves m s s' :
  step w o m s = Some s' ->
  emitted s' ++ inflight s' ++ future w o s'
    ≡ₚ emitted s ++ inflight s ++ future w o s.
Proof.
  destruct s as [p l infl e]. unfold step, future.
  cbn [pending loop inflight emitted]. intros H.
  destruct m as [| |i|].
  - destruct l; try discriminate.
    destruct p as [|u rest].
    + injection H as <-. reflexivity.
    + cbn [outputs].
      destruct (negb (errIsNil (Err u))); injection H as <-;
        cbn [pending loop inflight emitted].
      * reflexivity.
      * rewrite <- !app_assoc. reflexivity.
  - destruct l; try discriminate. injection H as <-.
    cbn [pending loop inflight emitted].
    rewrite app_nil_r, <- app_assoc.
    apply Permutation_app_head, Permutation_app_comm.
  - destruct (infl !! i) as [u|] eqn:Hi; [|destruct l; discriminate].
    assert (s' = mkStage p l (delete i infl) (e ++ [u])) as ->
      by (destruct l; congruence).
    cbn [pending loop inflight emitted].
    rewrite (delete_Permutation _ _ _ Hi) at 2.
    rewrite <- app_assoc. reflexivity.
  - destruct l; try discriminate.
    destruct infl; [|discriminate]. injection H as <-. reflexivity.
Qed.

Lemma run_conserves ms : forall s s',
  run w o ms s = Some s' ->
  emitted s' ++ inflight s' ++ future w o s'
    ≡ₚ emitted s ++ inflight s ++ future w o s.
Proof.
  induction ms as [|m ms IH]; intros s s' H; cbn [run] in H.
  - now injection H as <-.
  - destruct (step w o m s) as [s1|] eqn:Hstep; [|discriminate].
    rewrite (IH _ _ H). now apply (step_conserves m).
Qed.

(** [out] is closed only when every task has sent its Unit. *)
Lemma step_finished m s s' :
  step w o m s = Some s' ->
  (loop s = Finished -> inflight s = []) ->
  loop s' = Finished -> inflight s' = [].
Proof.
  destruct s as [p l infl e]. unfold step.
  cbn [pending loop inflight emitted]. intros H Hinv.
  destruct m as [| |i|].
  - destruct l; try discriminate. destruct p as [|u rest].
    + injection H as <-. discriminate.
    + destruct (negb (errIsNil (Err u))); injection H as <-; discriminate.
  - destruct l; try discriminate. injection H as <-. discriminate.
  - destruct (infl !! i) as [u|] eqn:Hi; [|destruct l; discriminate].
    assert (s' = mkStage p l (delete i infl) (e ++ [u])) as ->
      by (destruct l; congruence).
    cbn [loop inflight]. intros Hl. rewrite (Hinv Hl) in Hi. discriminate.
  - destruct l; try discriminate.
    destruct infl; [|discriminate]. now injection H as <-.
Qed.

Lemma run_finished ms : forall s s',
  run w o ms s = Some s' ->
  (loop s = Finished -> inflight s = []) ->
  loop s' = Finished -> inflight s' = [].
Proof.
  induction ms as [|m ms IH]; intros s s' H Hinv; cbn [run] in H.
  - now injection H as <-.
  - destruct (step w o m s) as [s1|] eqn:Hstep; [|discriminate].
    eapply IH; [eassumption|]. eapply step_finished; eassumption.
Qed.

(** A run of the stage to the end sends what [outputs] lists, in some
    order. *)
Lemma getMulti_outputs us ms s :
  run w o ms (getMulti us) = Some s ->
  loop s = Finished ->
  emitted s ≡ₚ outputs w o us.
Proof.
  intros Hrun Hfin.
  pose proof (run_conserves _ _ _ Hrun) as Hperm.
  pose proof (run_finished _ _ _ Hrun) as Hinfl.
  rewrite Hinfl in Hperm by (assumption || discriminate).
  unfold future in Hperm. rewrite Hfin in Hperm.
  cbn in Hperm. now rewrite app_nil_r in Hperm.
Qed.

(** There is always a way to the end: hand every Unit over as soon as its
    task has it. *)
Lemma getMulti_completes : forall us e,
  exists ms rest,
    run w o ms (mkStage us Ranging [] e)
    = Some (mkStage rest Finished [] (e ++ outputs w o us)).
Proof.
  induction us as [|u us IH]; intros e.
  - exists [Receive; Close], []. cbn. now rewrite app_nil_r.
  - cbn [outputs]. destruct (negb (errIsNil (Err u))) eqn:Herr.
    + exists [Receive; Forward; Close], us. cbn. now rewrite Herr.
    + destruct (IH (e ++ [hydrate w o u])) as (ms & rest & Hrun).
      exists (Receive :: Deliver 0 :: ms), rest.
      cbn -[hydrate]. rewrite Herr. cbn -[hydrate]. rewrite Hrun.
      now rewrite <- app_assoc.
Qed.

(** What the tasks send when no batch-fetch fails: the chunks, hydrated. *)
Lemma outputs_all_fetched us :
  (forall es, getMultiErr w es = None) ->
  Forall (fun u => Err u = None) us ->
  hydratedCount (outputs w o us) = hydratedCount us /\
  Forall (fun u => Err u = None) (outputs w o us).
Proof.
  intros Hget Hall. induction Hall as [|u us Hu Hall [IHn IHe]].
  - split; [reflexivity|constructor].
  - cbn [outputs]. rewrite Hu. cbn [errIsNil negb].
    assert (Hh : hydrate w o u
                 = mkUnit (option_map (List.map (fetch w)) (Entities u)) None).
    { unfold hydrate, GetMulti. now rewrite Hget, Hu. }
    rewrite Hh. split.
    + rewrite !hydratedCount_cons, IHn, Hu. cbn [Err Entities errIsNil].
      f_equal. unfold len.
      destruct (Entities u); cbn; [apply length_map|reflexivity].
    + constructor; [reflexivity|assumption].
Qed.

(** Up to the first upstream error the input is hydrated; the error is
    forwarded and what comes behind it is never looked at. *)
Lemma outputs_upstream_error pre u post :
  Forall (fun u => Err u = None) pre ->
  Err u <> None ->
  outputs w o (pre ++ u :: post)
  = (hydrate w o <$> pre) ++ [mkUnit None (WithStack (Err u))].
Proof.
  intros Hpre Hu. induction Hpre as [|x pre Hx Hpre IH].
  - cbn. destruct (Err u); [reflexivity|congruence].
  - cbn. rewrite Hx. cbn. now rewrite <- IH.
Qed.

(** A task's Unit has entities or an error, never both. *)
Lemma hydrate_errorAlone u : Err u = None -> errorAlone (hydrate w o u).
Proof.
  intros Hu. unfold hydrate, GetMulti, errorAlone.
  destruct (getMultiErr w _) as [err|]; cbn; [|rewrite Hu; split; congruence].
  destruct (IgnoreErrFieldMismatch o); cbn; [|split; congruence].
  destruct (filter _ _) as [filtered [err'|]]; cbn; split; congruence.
Qed.

(** With IgnoreErrFieldMismatch on, a task whose batch-fetch reports only
    field mismatches sends the other entities, as fetched. *)
Lemma hydrate_tolerates_field_mismatches u mErr :
  IgnoreErrFieldMismatch o = true ->
  getMultiErr w (elems (Entities u)) = Some (MultiError mErr) ->
  len (Entities u) <> 0%nat ->
  length mErr = len (Entities u) ->
  Forall (fun e => e = None \/ isErrFieldMismatch e = true) mErr ->
  hydrate w o u
  = mkUnit (Some (survivors (List.map (fetch w) (elems (Entities u))) mErr)) None.
Proof.
  intros Hon Hget Hne Hlen Hall. unfold hydrate, GetMulti.
  rewrite Hget, Hon. cbn [negb].
  assert (Hl : len (option_map (List.map (fetch w)) (Entities u)) = len (Entities u)).
  { unfold len. destruct (Entities u); cbn; [apply length_map|reflexivity]. }
  rewrite filter_survivors by (rewrite ?Hl; assumption).
  f_equal. f_equal. f_equal. now destruct (Entities u).
Qed.

Lemma outputs_errorAlone us : Forall errorAlone (outputs w o us).
Proof.
  induction us as [|u us IH]; cbn [outputs]; [constructor|].
  destruct (Err u) as [err|] eqn:Hu; cbn [errIsNil negb].
  - constructor; [|constructor]. split; cbn; congruence.
  - constructor; [|assumption]. now apply hydrate_errorAlone.
Qed.

Lemma run_errorAlone ms us s :
  run w o ms (getMulti us) = Some s -> Forall errorAlone (emitted s).
Proof.
  intros Hrun. pose proof (run_conserves _ _ _ Hrun) as Hperm.
  cbn in Hperm.
  pose proof (outputs_errorAlone us) as Hall.
  rewrite <- Hperm in Hall. now apply Forall_app in Hall as [? _].
Qed.

End StageFacts.

(** ** New *)

Section NewFacts.

Context {Key Entity QuerySpec : Type}.

Implicit Types (h : gmap nat (Options Key Entity QuerySpec))
  (opts : Options Key Entity QuerySpec).

Lemma New_nonzero h l opts :
  h !! l = Some opts -> FetchLimit opts <> 0%Z -> New h (Some l) = (h, l).
Proof.
  intros Hl Hne. unfold New. rewrite Hl.
  destruct (Z.eqb_spec (FetchLimit opts) 0); [contradiction|reflexivity].
Qed.

Lemma stageOptions_nonzero h l opts :
  h !! l = Some opts -> FetchLimit opts <> 0%Z ->
  stageOptions h (Some l) = Some opts.
Proof.
  intros Hl Hne. unfold stageOptions. now rewrite (New_nonzero _ _ _ Hl Hne).
Qed.

End NewFacts.

(** With a chunk size of zero the loop of [query] would never end by
    itself: every page is empty and not the last one. *)
Lemma query_zero_limit_spins {Key Entity QuerySpec : Type}
    (w : World Key Entity QuerySpec) (o : Options Key Entity QuerySpec) q :
  Query o = Some q ->
  FetchLimit o = 0%Z ->
  (forall p, cursorFault w p = None) ->
  (forall p, cancelled w p = false) ->
  forall fuel page cur,
    queryLoop fuel w o page cur = (replicate fuel (mkUnit make0 None), Running).
Proof.
  intros Hq Hlimit Hcursor Hcancel.
  induction fuel as [|fuel IH]; intros page cur; [reflexivity|].
  cbn [queryLoop]. rewrite Hq, Hlimit.
  change (Z.to_nat 0) with 0%nat. change (0 <? 0)%Z with false.
  cbn [nextKeys]. now rewrite Hcursor, Hcancel, IH.
Qed.

Lemma ceilDiv_floor (n c : nat) :
  (1 <= c)%nat ->
  ceilDiv n c = (n / c + if (n mod c =? 0)%nat then 0 else 1)%nat.
Proof.
  intros Hc. unfold ceilDiv.
  pose proof (Nat.div_mod n c ltac:(lia)) as Hdm.
  pose proof (Nat.mod_upper_bound n c ltac:(lia)) as Hub.
  destruct (Nat.eqb_spec (n mod c) 0) as [Hz|Hnz].
  - symmetry. apply (Nat.div_unique _ _ _ (c - 1)); lia.
  - symmetry. apply (Nat.div_unique _ _ _ (n mod c - 1)); lia.
Qed.

Lemma chunkUnits_all {Entity} (us : list (Unit Entity)) :
  Forall (fun u => Err u = None) us -> chunkUnits us = us.
Proof.
  induction 1 as [|u us Hu _ IH]; [reflexivity|].
  unfold chunkUnits in *. cbn. now rewrite Hu, IH.
Qed.

(** * The claims *)

(** C1, as far as it holds.  A query with [N] results, a shaping function
    that appends one stub per key, an iterator and a cursor that raise no
    error, a context that is not cancelled, a batch-fetch that never
    fails, and a chunk size [C >= 1]: in every run of the pipeline of [New]
    to the closing of its output, the entities of the Units without error
    add up to [N]; and such runs exist. *)
Theorem pipeline_hydrates_every_record {Key Entity QuerySpec : Type}
    (w : World Key Entity QuerySpec) (h : gmap nat (Options Key Entity QuerySpec))
    (l : nat) (opts : Options Key Entity QuerySpec) (q : QuerySpec)
    (f : AppenderFn Key Entity) (N C : nat) :
  h !! l = Some opts ->
  Query opts = Some q ->
  Appender opts = Some f ->
  appendsOne f ->
  FetchLimit opts = Z.of_nat C ->
  (1 <= C)%nat ->
  quiet w ->
  (forall es, getMultiErr w es = None) ->
  length (results w q) = N ->
  (forall fuel ms s,
     schedule fuel w h (Some l) ms = Some s ->
     loop s = Finished ->
     hydratedCount (emitted s) = N /\ Forall (fun u => Err u = None) (emitted s)) /\
  (exists fuel ms s,
     schedule fuel w h (Some l) ms = Some s /\ loop s = Finished).
Proof.
  intros Hl Hq Hf Hone Hlimit HC Hquiet Hget HN.
  assert (Hopts : stageOptions h (Some l) = Some opts)
    by (apply stageOptions_nonzero; [assumption|lia]).
  destruct (queryLoop_quiet w opts q f C Hquiet Hq Hf Hone Hlimit HC
              (S (N / C)) 0 None) as (us & Hquery & Hall & _ & Hsum & _).
  { simpl. lia. }
  { simpl. rewrite Nat.sub_0_r, HN. lia. }
  simpl in Hsum. rewrite Nat.sub_0_r, HN in Hsum.
  destruct (outputs_all_fetched w opts us Hget Hall) as [Hcount Hnoerr].
  split.
  - intros fuel ms s Hrun Hfin. unfold schedule, pipeline in Hrun.
    rewrite Hopts in Hrun.
    destruct (query fuel w opts) as [us' [| |]] eqn:Hfuel; try discriminate.
    assert (us' = us) as ->.
    { pose proof (queryLoop_fuel_mono w opts fuel (Nat.max fuel (S (N / C))) 0 None) as H1.
      pose proof (queryLoop_fuel_mono w opts (S (N / C)) (Nat.max fuel (S (N / C))) 0 None) as H2.
      unfold query in Hfuel. rewrite Hfuel in H1. rewrite Hquery in H2.
      cbn [snd] in H1, H2.
      rewrite H1 in H2 by (discriminate || lia).
      specialize (H2 ltac:(discriminate) ltac:(lia)). congruence. }
    pose proof (getMulti_outputs w opts us ms s Hrun Hfin) as Hperm.
    split.
    + unfold hydratedCount in *. rewrite Hperm. congruence.
    + now rewrite Hperm.
  - destruct (getMulti_completes w opts us []) as (ms & rest & Hrun).
    exists (S (N / C)), ms, (mkStage rest Finished [] ([] ++ outputs w opts us)).
    split; [|reflexivity].
    unfold schedule, pipeline, query. rewrite Hopts, Hquery. exact Hrun.
Qed.

Lemma pipeline_hydrates_every_record_witness :
  hydratedCount
    (emitted (mkStage [] Finished []
                [mkUnit (Some [3]) None; mkUnit (Some [1; 2]) None]))
  = 3%nat.
Proof.
  refine (proj1 (proj1 (pipeline_hydrates_every_record
            (sampleWorld [1; 2; 3] noError) {[ 0%nat := sampleOptions 2 false ]}
            0 (sampleOptions 2 false) tt (fun es _ k _ => append es k) 3 2
            _ _ _ _ _ _ _ _ _)
            3%nat [Receive; Receive; Deliver 1; Deliver 0; Receive; Close]
            (mkStage [] Finished [] [mkUnit (Some [3]) None; mkUnit (Some [1; 2]) None])
            _ _)).
  - reflexivity.
  - reflexivity.
  - reflexivity.
  - intros es i k pk. exists k. reflexivity.
  - reflexivity.
  - lia.
  - repeat split.
  - reflexivity.
  - reflexivity.
  - vm_compute. reflexivity.
  - reflexivity.
Defined.

(** C2, as far as it holds.  Under the same conditions on the query
    stage, [query] sends [floor(N / C) + 1] Units, each carrying a chunk:
    the page that meets the end of the results is sent too, also when it
    is empty.  [ceil(N / C)] of the chunks are not empty, and the number of
    Units is [ceil(N / C)] exactly when [C] does not divide [N]. *)
Theorem query_sends_a_unit_per_page {Key Entity QuerySpec : Type}
    (w : World Key Entity QuerySpec) (o : Options Key Entity QuerySpec)
    (q : QuerySpec) (f : AppenderFn Key Entity) (N C fuel : nat) :
  quiet w ->
  Query o = Some q ->
  Appender o = Some f ->
  appendsOne f ->
  FetchLimit o = Z.of_nat C ->
  (1 <= C)%nat ->
  length (results w q) = N ->
  (N / C < fuel)%nat ->
  exists us,
    query fuel w o = (us, Closed) /\
    chunkUnits us = us /\
    length (chunkUnits us) = (N / C + 1)%nat /\
    length (fullUnits us) = ceilDiv N C /\
    (length (chunkUnits us) = ceilDiv N C <-> N mod C <> 0%nat).
Proof.
  intros Hquiet Hq Hf Hone Hlimit HC HN Hfuel.
  destruct (queryLoop_quiet w o q f C Hquiet Hq Hf Hone Hlimit HC fuel 0 None)
    as (us & Hquery & Hall & Hlen & _ & Hfull).
  { simpl. lia. }
  { simpl. rewrite Nat.sub_0_r, HN. lia. }
  simpl in Hlen, Hfull. rewrite Nat.sub_0_r, HN in Hlen, Hfull.
  exists us. rewrite (chunkUnits_all us Hall).
  repeat split; try assumption.
  - rewrite Hlen, ceilDiv_floor by assumption.
    destruct (Nat.eqb_spec (N mod C) 0); lia.
  - rewrite Hlen, ceilDiv_floor by assumption.
    destruct (Nat.eqb_spec (N mod C) 0); lia.
Qed.

Lemma query_sends_a_unit_per_page_witness :
  exists us,
    query 3 (sampleWorld [1; 2; 3] noError) (sampleOptions 2 false) = (us, Closed) /\
    chunkUnits us = us /\
    length (chunkUnits us) = (3 / 2 + 1)%nat /\
    length (fullUnits us) = ceilDiv 3 2 /\
    (length (chunkUnits us) = ceilDiv 3 2 <-> 3 mod 2 <> 0%nat).
Proof.
  apply (query_sends_a_unit_per_page (sampleWorld [1; 2; 3] noError)
           (sampleOptions 2 false) tt (fun es _ k _ => append es k) 3 2 3).
  - repeat split.
  - reflexivity.
  - reflexivity.
  - intros es i k pk. exists k. reflexivity.
  - reflexivity.
  - lia.
  - reflexivity.
  - simpl. lia.
Defined.

(** C2 as it is written fails where [C] divides [N]: no result at all
    gives one Unit, not [ceil(0 / 1) = 0], and two results in chunks of
    two give two Units, not [ceil(2 / 2) = 1]. *)
Lemma query_sends_one_unit_more_than_ceil :
  quiet (sampleWorld [] noError) /\
  quiet (sampleWorld [1; 2] noError) /\
  appendsOne (fun (es : slice nat) (_ : Z) (k : nat) (_ : option nat) => append es k) /\
  query 1 (sampleWorld [] noError) (sampleOptions 1 false)
    = ([mkUnit (Some []) None], Closed) /\
  length (chunkUnits [mkUnit (Some (@nil nat)) None]) <> ceilDiv 0 1 /\
  query 2 (sampleWorld [1; 2] noError) (sampleOptions 2 false)
    = ([mkUnit (Some [1; 2]) None; mkUnit (Some []) None], Closed) /\
  length (chunkUnits [mkUnit (Some [1; 2]) None; mkUnit (Some []) None]) <> ceilDiv 2 2.
Proof.
  repeat split; try (vm_compute; congruence).
  intros es i k pk. exists k. reflexivity.
Qed.

(** C3, as far as it holds.  The query stage never sends anything after a
    Unit with an error.  The loop of [getMulti] starts nothing after it has
    received one: a run to the end sends one Unit per chunk received
    before it and the forwarded error, and nothing for what is behind it
    on the input.  (The order on [out] is the scheduler's: Units of tasks
    already started can follow the error, as can Units after a task's own
    error Unit.) *)
Theorem stages_stop_at_upstream_error {Key Entity QuerySpec : Type}
    (w : World Key Entity QuerySpec) (o : Options Key Entity QuerySpec) :
  (forall fuel, haltsAtError (fst (query fuel w o))) /\
  (forall pre u post ms s,
     Forall (fun u => Err u = None) pre ->
     Err u <> None ->
     run w o ms (getMulti (pre ++ u :: post)) = Some s ->
     loop s = Finished ->
     emitted s ≡ₚ (hydrate w o <$> pre) ++ [mkUnit None (WithStack (Err u))]).
Proof.
  split.
  - intros fuel. apply queryLoop_haltsAtError.
  - intros pre u post ms s Hpre Hu Hrun Hfin.
    rewrite (getMulti_outputs w o _ ms s Hrun Hfin).
    now rewrite outputs_upstream_error.
Qed.

Lemma stages_stop_at_upstream_error_witness :
  emitted (mkStage [mkUnit (Some [9%nat]) None] Finished []
             [mkUnit None (Some (withStack (errorString "iterator")));
              mkUnit (Some [1%nat]) None])
  ≡ₚ (hydrate (sampleWorld [] noError) (sampleOptions 1 false)
        <$> [mkUnit (Some [1%nat]) None])
     ++ [mkUnit None (WithStack (Some (errorString "iterator")))].
Proof.
  refine (proj2 (stages_stop_at_upstream_error (sampleWorld [] noError)
                   (sampleOptions 1 false))
            [mkUnit (Some [1%nat]) None]
            (mkUnit None (Some (errorString "iterator")))
            [mkUnit (Some [9%nat]) None]
            [Receive; Receive; Forward; Deliver 0; Close] _ _ _ _ _).
  - repeat constructor.
  - discriminate.
  - vm_compute. reflexivity.
  - reflexivity.
Defined.

(** C3 as it is written fails on the output of the pipeline.  Two keys in
    chunks of one, IgnoreErrFieldMismatch off, and a batch-fetch that fails
    on the first chunk only: the first task sends its error Unit, and the
    Units of the second and of the last, empty chunk follow it. *)
Lemma unit_follows_error_unit :
  schedule 3 (sampleWorld [1; 2] failsOnFirst) {[ 0%nat := sampleOptions 1 false ]}
    (Some 0%nat)
    [Receive; Deliver 0; Receive; Deliver 0; Receive; Deliver 0; Receive; Close]
  = Some (mkStage [] Finished []
            [mkUnit None (Some (withStack (errorString "boom")));
             mkUnit (Some [2]) None;
             mkUnit (Some []) None]) /\
  ~ haltsAtError
      [mkUnit None (Some (withStack (errorString "boom")));
       mkUnit (Some [2%nat]) None;
       mkUnit (Some []) None].
Proof.
  split.
  - vm_compute. reflexivity.
  - intros H.
    specialize (H [] _ _ eq_refl). cbn in H.
    discriminate H. discriminate.
Qed.

(** The error [getMulti] forwards is not the last Unit either when a task
    is still in flight: the iterator fails on the second page, the error
    gets through first, the first chunk after it. *)
Lemma chunk_follows_forwarded_error :
  schedule 2 (secondPageFails [1; 2]) {[ 0%nat := sampleOptions 1 false ]}
    (Some 0%nat) [Receive; Receive; Forward; Deliver 0; Close]
  = Some (mkStage [] Finished []
            [mkUnit None (Some (withStack (withStack (errorString "iterator"))));
             mkUnit (Some [1]) None]).
Proof. vm_compute. reflexivity. Qed.

(** C4, as far as it holds.  [New] writes to the caller's Options in one
    case only: a FetchLimit of 0 becomes 100.  The other fields keep their
    values, so does a FetchLimit that is not 0 (the heap is then the one
    before), and so does everything else in the heap.  The stages read
    the Options and have no way to write them. *)
Theorem New_writes_only_a_zero_FetchLimit {Key Entity QuerySpec : Type}
    (h : gmap nat (Options Key Entity QuerySpec)) (l : nat)
    (opts : Options Key Entity QuerySpec) :
  h !! l = Some opts ->
  (New h (Some l)).2 = l /\
  (forall l', l' <> l -> (New h (Some l)).1 !! l' = h !! l') /\
  (New h (Some l)).1 !! l
    = Some (mkOptions (Appender opts)
              (if (FetchLimit opts =? 0)%Z then 100%Z else FetchLimit opts)
              (IgnoreErrFieldMismatch opts) (ParentKey opts) (Query opts)) /\
  (FetchLimit opts <> 0%Z -> (New h (Some l)).1 = h).
Proof.
  intros Hl. unfold New. rewrite Hl.
  destruct (Z.eqb_spec (FetchLimit opts) 0) as [Hz|Hnz]; cbn [fst snd].
  - split; [reflexivity|]. split; [|split].
    + intros l' Hne. now rewrite lookup_insert_ne.
    + now rewrite lookup_insert_eq.
    + contradiction.
  - split; [reflexivity|]. split; [reflexivity|]. split; [|reflexivity].
    rewrite Hl. now destruct opts.
Qed.

Lemma New_writes_only_a_zero_FetchLimit_witness :
  (New {[ 0%nat := sampleOptions 10 true ]} (Some 0%nat)).1
  = {[ 0%nat := sampleOptions 10 true ]}.
Proof.
  refine (proj2 (proj2 (proj2 (New_writes_only_a_zero_FetchLimit
            {[ 0%nat := sampleOptions 10 true ]} 0 (sampleOptions 10 true) _))) _).
  - reflexivity.
  - discriminate.
Defined.

(** C4 as it is written fails: with a FetchLimit of 0 the caller's
    Options hold 100 after [New]. *)
Lemma New_overwrites_zero_FetchLimit :
  FetchLimit <$> ({[ 0%nat := sampleOptions 0 false ]} : gmap nat _) !! 0%nat = Some 0%Z /\
  FetchLimit <$> (New {[ 0%nat := sampleOptions 0 false ]} (Some 0%nat)).1 !! 0%nat
    = Some 100%Z /\
  (New {[ 0%nat := sampleOptions 0 false ]} (Some 0%nat)).1 !! 0%nat
    <> ({[ 0%nat := sampleOptions 0 false ]} : gmap nat _) !! 0%nat.
Proof.
  split; [|split].
  - vm_compute. reflexivity.
  - vm_compute. reflexivity.
  - intros H. apply (f_equal (fmap FetchLimit)) in H. vm_compute in H. discriminate H.
Qed.

(** C10.  A Unit either stage sends with an error has nil Entities, and
    one with Entities has a nil error: for [query] at every moment of
    every run, for [getMulti] on every input and under every schedule. *)
Theorem error_units_carry_no_entities {Key Entity QuerySpec : Type}
    (w : World Key Entity QuerySpec) (o : Options Key Entity QuerySpec) :
  (forall fuel, Forall errorAlone (fst (query fuel w o))) /\
  (forall us ms s, run w o ms (getMulti us) = Some s -> Forall errorAlone (emitted s)).
Proof.
  split.
  - intros fuel. apply queryLoop_errorAlone.
  - intros us ms s H. eapply run_errorAlone. exact H.
Qed.

Lemma error_units_carry_no_entities_witness :
  Forall errorAlone
    [mkUnit None (Some (withStack (errorString "boom"))); mkUnit (Some [2%nat]) None].
Proof.
  refine (proj2 (error_units_carry_no_entities (sampleWorld [1; 2] failsOnFirst)
                   (sampleOptions 1 false))
            [mkUnit (Some [1%nat]) None; mkUnit (Some [2%nat]) None]
            [Receive; Deliver 0; Receive; Deliver 0]
            (mkStage [] Ranging []
               [mkUnit None (Some (withStack (errorString "boom")));
                mkUnit (Some [2%nat]) None]) _).
  vm_compute. reflexivity.
Defined.

(** * Further properties *)

(** ** [filter] *)

Section FilterMore.

Context {Entity : Type}.

Implicit Types (entities : slice Entity) (es acc : list Entity)
  (mErr : list (option error)) (err : option error).

(** What the loop keeps is taken from the chunk, in order. *)
Lemma filterLoop_sublist es : forall mErr acc r,
  filterLoop es mErr acc = Some r ->
  exists kept, r = acc ++ kept /\ kept `sublist_of` es.
Proof.
  induction es as [|e es IH]; intros mErr acc r H.
  - exists []. cbn in H. injection H as <-. now rewrite app_nil_r.
  - destruct mErr as [|[x|] mErr]; cbn [filterLoop] in H.
    + exists []. injection H as <-. rewrite app_nil_r. split; [reflexivity|].
      apply sublist_nil_l.
    + destruct (isErrFieldMismatch (Some x)); [|discriminate].
      destruct (IH _ _ _ H) as (kept & -> & Hsub).
      exists kept. split; [reflexivity|]. now apply sublist_cons.
    + destruct (IH _ _ _ H) as (kept & -> & Hsub).
      exists (e :: kept). split; [now rewrite <- app_assoc|].
      now apply sublist_skip.
Qed.

(** One entry that is neither nil nor a field mismatch makes the loop give
    up. *)
Lemma filterLoop_gives_up es : forall mErr acc i e,
  length mErr = length es ->
  mErr !! i = Some (Some e) ->
  isErrFieldMismatch (Some e) = false ->
  filterLoop es mErr acc = None.
Proof.
  induction es as [|x es IH]; intros [|m mErr] acc i e Hlen Hi He;
    simpl in Hlen; try lia; try discriminate.
  destruct i as [|i]; cbn in Hi.
  - injection Hi as ->. cbn [filterLoop]. now rewrite He.
  - cbn [filterLoop]. destruct m as [y|].
    + destruct (isErrFieldMismatch (Some y)); [|reflexivity].
      eapply IH; eauto.
    + eapply IH; eauto.
Qed.

Lemma filter_shape entities err :
  filter entities err = (entities, err) \/
  exists kept,
    filter entities err = (Some kept, None) /\ kept `sublist_of` elems entities.
Proof.
  unfold filter.
  destruct (_ || _); [now left|].
  destruct (asMultiError err) as [mErr|]; [|now left].
  destruct (negb _).
  - right. exists []. split; [reflexivity|apply sublist_nil_l].
  - destruct (filterLoop _ _ _) as [r|] eqn:Hloop; [|now left].
    right. destruct (filterLoop_sublist _ _ _ _ Hloop) as (kept & -> & Hsub).
    now exists kept.
Qed.

End FilterMore.

(** X1.  Whatever it is given, [filter] either hands back the chunk and
    the error untouched, or a nil error with entities taken from the chunk
    in their order: it never adds, repeats or reorders an entity, and never
    makes up an error. *)
Theorem filter_returns_input_or_part_of_it {Entity : Type}
    (entities : slice Entity) (err : option error) :
  filter entities err = (entities, err) \/
  exists kept,
    filter entities err = (Some kept, None) /\
    kept `sublist_of` elems entities /\
    (length kept <= len entities)%nat.
Proof.
  destruct (filter_shape entities err) as [H|(kept & H & Hsub)]; [now left|].
  right. exists kept. repeat split; try assumption.
  now apply sublist_length.
Qed.

(** X2.  A MultiError of the chunk's length with one entry that is neither
    nil nor a field mismatch: [filter] gives the whole chunk and the
    MultiError back, also when other entries are field mismatches. *)
Theorem filter_gives_up_on_other_item_error {Entity : Type}
    (entities : slice Entity) (mErr : list (option error)) (i : nat) (e : error) :
  length mErr = len entities ->
  mErr !! i = Some (Some e) ->
  isErrFieldMismatch (Some e) = false ->
  filter entities (Some (MultiError mErr)) = (entities, Some (MultiError mErr)).
Proof.
  intros Hlen Hi He. unfold filter. cbn [errIsNil asMultiError].
  destruct (len entities =? 0)%nat; [reflexivity|]. cbn [orb].
  rewrite Hlen, Nat.eqb_refl. cbn [negb].
  now rewrite (filterLoop_gives_up _ _ _ i e).
Qed.

Lemma filter_gives_up_on_other_item_error_witness :
  filter (Some [1; 2]%nat)
    (Some (MultiError [Some (ErrFieldMismatch "testHoge" "OldName" "no such struct field");
                       Some (errorString "hoge error")]))
  = (Some [1; 2]%nat,
     Some (MultiError [Some (ErrFieldMismatch "testHoge" "OldName" "no such struct field");
                       Some (errorString "hoge error")])).
Proof.
  apply (filter_gives_up_on_other_item_error (Some [1; 2]%nat) _ 1
           (errorString "hoge error")); reflexivity.
Defined.

(** X3.  Filtering what [filter] returned changes nothing. *)
Theorem filter_idempotent {Entity : Type} (entities : slice Entity)
    (err : option error) :
  filter (filter entities err).1 (filter entities err).2 = filter entities err.
Proof.
  destruct (filter_shape entities err) as [H|(kept & H & _)]; rewrite H; cbn [fst snd].
  - exact H.
  - unfold filter. cbn [errIsNil]. now rewrite orb_true_r.
Qed.

(** X4.  The two revisions of [filter] give different results exactly on
    the chunks that are not empty together with a bare field mismatch;
    everywhere else (nil error, empty chunk, any other error) they
    agree. *)
Theorem filter_revisions_differ_exactly {Entity : Type}
    (entities : slice Entity) (err : option error) :
  Rev1.filter entities err <> filter entities err <->
  len entities <> 0%nat /\ isErrFieldMismatch err = true.
Proof.
  unfold Rev1.filter, filter.
  destruct (Nat.eqb_spec (len entities) 0) as [Hz|Hnz]; cbn [orb].
  { split; [congruence|]. intros [? _]. contradiction. }
  destruct err as [e|]; cbn [errIsNil].
  2:{ split; [congruence|]. intros [_ ?]. discriminate. }
  destruct e; cbn [asMultiError isErrFieldMismatch negb];
    try (split; [congruence|]; intros [_ ?]; discriminate).
  split; [now intros _|]. intros _. discriminate.
Qed.

(** ** [query] *)

Section QueryMore.

Context {Key Entity QuerySpec : Type}.

Implicit Types (w : World Key Entity QuerySpec) (o : Options Key Entity QuerySpec)
  (q : QuerySpec) (u : Unit Entity) (us : list (Unit Entity))
  (entities : slice Entity).

(** A page grows by at most one entity per key when the Appender does. *)
Lemma nextKeys_len w o q page start n : forall i entities d ents,
  (forall f, Appender o = Some f ->
     forall es j k pk, (len (f es j k pk) <= S (len es))%nat) ->
  nextKeys w o q page start n i entities = PageKeys d ents ->
  (len ents <= len entities + n)%nat.
Proof.
  induction n as [|n IH]; intros i entities d ents Hf H; cbn [nextKeys] in H.
  - injection H as _ <-. lia.
  - destruct (Next w q page start i) as [k|e].
    + destruct (Appender o) as [f|] eqn:Hap; [|discriminate].
      apply IH in H; [|assumption].
      specialize (Hf f eq_refl entities (Z.of_nat i) k (ParentKey o)). lia.
    + destruct e; try discriminate. injection H as _ <-. lia.
Qed.

Lemma queryLoop_chunk_bound w o
    (Hf : forall f, Appender o = Some f ->
            forall es j k pk, (len (f es j k pk) <= S (len es))%nat) :
  forall fuel page cur,
    Forall (fun u => (len (Entities u) <= Z.to_nat (FetchLimit o))%nat)
      (fst (queryLoop fuel w o page cur)).
Proof.
  assert (Herr : forall e : option error,
            (len (Entities (mkUnit (@None (list Entity)) e))
             <= Z.to_nat (FetchLimit o))%nat) by (intros; cbn; lia).
  induction fuel as [|fuel IH]; intros page cur; [constructor|].
  cbn [queryLoop].
  destruct (Query o) as [q|]; [|constructor].
  destruct (FetchLimit o <? 0)%Z; [constructor|].
  destruct (nextKeys _ _ _ _ _ _ _ _) as [isDone ents|err|] eqn:Hpage;
    [|constructor; [apply Herr|constructor]|constructor].
  apply nextKeys_len in Hpage; [|assumption].
  change (len make0) with 0%nat in Hpage.
  destruct isDone.
  - destruct (cancelled w page); [constructor|].
    constructor; [cbn; lia|constructor].
  - destruct (cursorFault w page); [constructor; [apply Herr|constructor]|].
    destruct (cancelled w page); [constructor|].
    specialize (IH (S page) (Some (default 0%nat cur + Z.to_nat (FetchLimit o))%nat)).
    destruct (queryLoop fuel w o _ _) as [us' e']. cbn [fst] in *.
    constructor; [cbn; lia|exact IH].
Qed.

(** An error page stems from the iterator. *)
Lemma nextKeys_error w o q page start n : forall i entities err,
  nextKeys w o q page start n i entities = PageErr err ->
  exists j, nextFault w page j = Some err.
Proof.
  induction n as [|n IH]; intros i entities err H; cbn [nextKeys] in H; [discriminate|].
  unfold Next in H.
  destruct (nextFault w page i) as [e|] eqn:Hfault.
  - destruct e; try discriminate; injection H as <-; eauto.
  - destruct (results w q !! (start + i)%nat); [|discriminate].
    destruct (Appender o); [|discriminate]. eauto.
Qed.

Lemma queryLoop_errors_from_store w o : forall fuel page cur,
  Forall (fun u => forall e, Err u = Some e ->
            exists e0 p, e = withStack e0 /\
              ((exists j, nextFault w p j = Some e0) \/ cursorFault w p = Some e0))
    (fst (queryLoop fuel w o page cur)).
Proof.
  induction fuel as [|fuel IH]; intros page cur; [constructor|].
  cbn [queryLoop].
  destruct (Query o) as [q|]; [|constructor].
  destruct (FetchLimit o <? 0)%Z; [constructor|].
  destruct (nextKeys _ _ _ _ _ _ _ _) as [isDone ents|err|] eqn:Hpage; [| |constructor].
  - destruct isDone.
    + destruct (cancelled w page); repeat constructor. intros e [=].
    + destruct (cursorFault w page) as [err|] eqn:Hc.
      * repeat constructor. intros e [= <-]. exists err, page. eauto.
      * destruct (cancelled w page); [constructor|].
        specialize (IH (S page) (Some (default 0%nat cur + Z.to_nat (FetchLimit o))%nat)).
        destruct (queryLoop fuel w o _ _) as [us' e']. cbn [fst] in *.
        constructor; [intros e [=]|exact IH].
  - apply nextKeys_error in Hpage as [j Hj].
    repeat constructor. intros e [= <-]. exists err, page. eauto.
Qed.

(** The number of pages is bounded by the results, whatever goes wrong. *)
Lemma queryLoop_bound w o q C
    (Hq : Query o = Some q) (Hlimit : FetchLimit o = Z.of_nat C) (HC : (1 <= C)%nat) :
  forall fuel page cur,
    let N := length (results w q) in
    let start := default 0%nat cur in
    (length (fst (queryLoop fuel w o page cur)) <= (N - start) / C + 1)%nat /\
    (((N - start) / C < fuel)%nat -> snd (queryLoop fuel w o page cur) <> Running).
Proof.
  induction fuel as [|fuel IH]; intros page cur N start; [cbn; split; lia|].
  cbn [queryLoop]. rewrite Hq, Hlimit, Nat2Z.id.
  destruct (Z.ltb_spec (Z.of_nat C) 0); [lia|].
  fold start.
  destruct (nextKeys _ _ _ _ _ _ _ _) as [isDone ents|err|] eqn:Hpage;
    [|cbn; split; [lia|discriminate]..].
  destruct isDone.
  - destruct (cancelled w page); cbn; (split; [lia|discriminate]).
  - destruct (cursorFault w page); [cbn; split; [lia|discriminate]|].
    destruct (cancelled w page); [cbn; split; [lia|discriminate]|].
    apply nextKeys_full in Hpage; [|lia]. fold N in Hpage.
    specialize (IH (S page) (Some (start + C)%nat)). cbn [default] in IH.
    fold N in IH.
    destruct (queryLoop fuel w o _ _) as [us' e']. cbn [fst snd length] in *.
    assert (Hdiv : ((N - start) / C = (N - (start + C)) / C + 1)%nat).
    { replace (N - start)%nat with ((N - (start + C)) + 1 * C)%nat by lia.
      apply Nat.div_add. lia. }
    unfold id in IH. destruct IH as [IHlen IHend]. split; [lia|].
    intros Hfuel. apply IHend. lia.
Qed.

(** No chunk is sent from the page on at which cancellation is seen, and
    the goroutine is gone after that page at the latest. *)
Lemma queryLoop_cancelled w o p (Hp : cancelled w p = true) :
  forall fuel page cur,
    (page <= p)%nat ->
    (length (chunkUnits (fst (queryLoop fuel w o page cur))) <= p - page)%nat /\
    (length (fst (queryLoop fuel w o page cur)) <= S (p - page))%nat /\
    ((p - page < fuel)%nat -> snd (queryLoop fuel w o page cur) <> Running).
Proof.
  induction fuel as [|fuel IH]; intros page cur Hle; [cbn; repeat split; lia|].
  cbn [queryLoop].
  destruct (Query o) as [q|]; [|cbn; repeat split; (lia || discriminate)].
  destruct (FetchLimit o <? 0)%Z; [cbn; repeat split; (lia || discriminate)|].
  destruct (nextKeys _ _ _ _ _ _ _ _) as [isDone ents|err|];
    [|cbn; repeat split; (lia || discriminate)..].
  destruct (cancelled w page) eqn:Hcancel.
  - destruct isDone; [cbn; repeat split; (lia || discriminate)|].
    destruct (cursorFault w page); cbn; repeat split; (lia || discriminate).
  - assert (page <> p) by congruence.
    destruct isDone; [cbn; repeat split; (lia || discriminate)|].
    destruct (cursorFault w page); [cbn; repeat split; (lia || discriminate)|].
    specialize (IH (S page) (Some (default 0%nat cur + Z.to_nat (FetchLimit o))%nat)
                  ltac:(lia)).
    destruct (queryLoop fuel w o _ _) as [us' e']. cbn [fst snd length] in *.
    destruct IH as (IH1 & IH2 & IH3).
    unfold chunkUnits in *. cbn [List.filter Err errIsNil length].
    repeat split; try lia. intros Hfuel. apply IH3. lia.
Qed.

(** *** The stream of a quiet run, Unit by Unit *)

Section Pages.

Variables (w : World Key Entity QuerySpec) (o : Options Key Entity QuerySpec)
  (q : QuerySpec) (f : AppenderFn Key Entity)
  (g : Z -> Key -> option Key -> Entity) (C : nat).

Hypothesis Hquiet : quiet w.
Hypothesis Hquery : Query o = Some q.
Hypothesis Happender : Appender o = Some f.
Hypothesis Hf : forall es i k pk, f es i k pk = append es (g i k pk).
Hypothesis Hlimit : FetchLimit o = Z.of_nat C.
Hypothesis Hpos : (1 <= C)%nat.

Lemma stubs_cons pk i k ks : stubs g pk i (k :: ks) = g (Z.of_nat i) k pk :: stubs g pk (S i) ks.
Proof.
  unfold stubs. rewrite imap_cons. rewrite Nat.add_0_r. f_equal.
  apply imap_ext. intros j x _. cbn. do 2 f_equal. lia.
Qed.

Lemma nextKeys_stubs page start n : forall i acc,
  nextKeys w o q page start n i (Some acc)
  = PageKeys (negb (start + i + n <=? length (results w q))%nat && negb (n =? 0)%nat)
      (Some (acc ++ stubs g (ParentKey o) i (take n (drop (start + i) (results w q))))).
Proof.
  destruct Hquiet as (Hnext & _ & _).
  induction n as [|n IH]; intros i acc.
  - cbn. now rewrite andb_false_r, app_nil_r.
  - cbn [nextKeys]. unfold Next. rewrite Hnext, Happender.
    destruct (results w q !! (start + i)%nat) as [k|] eqn:Hk.
    + rewrite Hf. unfold append. cbn [elems]. rewrite IH.
      pose proof (lookup_lt_Some _ _ _ Hk) as Hlt.
      rewrite (drop_S _ _ _ Hk). cbn [take]. rewrite stubs_cons.
      rewrite <- app_assoc. cbn [app].
      replace (start + S i)%nat with (S (start + i)) by lia.
      f_equal.
      destruct (Nat.leb_spec (S (start + i) + n) (length (results w q)));
        destruct (Nat.leb_spec (start + i + S n) (length (results w q)));
        try lia; try reflexivity.
      destruct n; [lia|reflexivity].
    + pose proof (lookup_ge_None_1 _ _ Hk) as Hge.
      rewrite drop_ge by assumption. cbn. rewrite app_nil_r.
      destruct (Nat.leb_spec (start + i + S n) (length (results w q))); [lia|].
      reflexivity.
Qed.

Lemma queryLoop_pages : forall fuel page cur,
  let N := length (results w q) in
  default 0%nat cur = (page * C)%nat ->
  (page * C <= N)%nat ->
  ((N - page * C) / C < fuel)%nat ->
  queryLoop fuel w o page cur
  = ((fun p => mkUnit (Some (stubs g (ParentKey o) 0 (pageKeys C (results w q) p))) None)
       <$> seq page ((N - page * C) / C + 1),
     Closed).
Proof.
  destruct Hquiet as (_ & Hcursor & Hcancel).
  induction fuel as [|fuel IH]; intros page cur N Hcur Hstart Hfuel; [lia|].
  cbn [queryLoop]. rewrite Hquery, Hlimit, Nat2Z.id, Hcur.
  destruct (Z.ltb_spec (Z.of_nat C) 0); [lia|].
  unfold make0. rewrite nextKeys_stubs. cbn [app].
  rewrite Nat.add_0_r. fold N. rewrite Hcancel.
  destruct (Nat.eqb_spec C 0); [lia|]. rewrite andb_true_r.
  destruct (Nat.leb_spec (page * C + C) N) as [Hfull|Hlast]; cbn [negb].
  - rewrite Hcursor.
    rewrite (IH (S page) (Some (page * C + C)%nat)); [|cbn; lia|lia|].
    + replace ((N - page * C) / C)%nat with ((N - S page * C) / C + 1)%nat.
      * rewrite !Nat.add_1_r. reflexivity.
      * replace (N - page * C)%nat with ((N - S page * C) + 1 * C)%nat by lia.
        symmetry. apply Nat.div_add. lia.
    + replace (N - page * C)%nat with ((N - S page * C) + 1 * C)%nat in Hfuel by lia.
      rewrite Nat.div_add in Hfuel by lia. subst N. lia.
  - rewrite Nat.div_small by lia. reflexivity.
Qed.

(** The pages cut the results into consecutive pieces. *)
Lemma pageKeys_join (ks : list Key) : forall k p0,
  mjoin (pageKeys C ks <$> seq p0 k) = take (k * C) (drop (p0 * C) ks).
Proof.
  induction k as [|k IH]; intros p0; [reflexivity|].
  cbn [seq fmap list_fmap mjoin list_join]. rewrite IH. unfold pageKeys.
  replace (S p0 * C)%nat with (p0 * C + C)%nat by lia.
  rewrite <- drop_drop, take_take_drop. f_equal.
Qed.

End Pages.

End QueryMore.

(** ** [getMulti] *)

Section StageMore.

Context {Key Entity QuerySpec : Type}.

Variables (w : World Key Entity QuerySpec) (o : Options Key Entity QuerySpec).

Implicit Types (u : Unit Entity) (us : list (Unit Entity)) (s : Stage Entity)
  (m : Move) (ms : list Move).

Lemma elems_fetched (entities : slice Entity) :
  elems (option_map (List.map (fetch w)) entities) = List.map (fetch w) (elems entities).
Proof. now destruct entities. Qed.

(** What a task sends is taken from what it fetched. *)
Lemma hydrate_sublist u :
  elems (Entities (hydrate w o u)) `sublist_of` List.map (fetch w) (elems (Entities u)).
Proof.
  unfold hydrate, GetMulti.
  destruct (getMultiErr w _) as [err|]; [|cbn; now rewrite elems_fetched].
  destruct (negb _); [apply sublist_nil_l|].
  destruct (filter_shape (option_map (List.map (fetch w)) (Entities u)) (Some err))
    as [H|(kept & H & Hsub)]; rewrite H.
  - apply sublist_nil_l.
  - cbn. now rewrite elems_fetched in Hsub.
Qed.

Lemma hydrate_len u : (len (Entities (hydrate w o u)) <= len (Entities u))%nat.
Proof.
  unfold len. rewrite (sublist_length _ _ (hydrate_sublist u)).
  now rewrite length_map.
Qed.

Lemma outputs_length us : (length (outputs w o us) <= length us)%nat.
Proof.
  induction us as [|u us IH]; cbn [outputs]; [reflexivity|].
  destruct (negb _); cbn; lia.
Qed.

Lemma outputs_len_bound L us :
  Forall (fun u => (len (Entities u) <= L)%nat) us ->
  Forall (fun u => (len (Entities u) <= L)%nat) (outputs w o us).
Proof.
  induction 1 as [|u us Hu _ IH]; cbn [outputs]; [constructor|].
  destruct (negb _).
  - constructor; [cbn; lia|constructor].
  - constructor; [|assumption]. pose proof (hydrate_len u). lia.
Qed.

(** At any moment what has been received is part of [outputs]. *)
Lemma run_emitted_submseteq us ms s :
  run w o ms (getMulti us) = Some s -> emitted s ⊆+ outputs w o us.
Proof.
  intros Hrun. pose proof (run_conserves w o _ _ _ Hrun) as Hperm.
  cbn in Hperm. rewrite <- Hperm. now apply submseteq_inserts_r.
Qed.

Lemma run_emitted_Forall (P : Unit Entity -> Prop) us ms s :
  Forall P (outputs w o us) ->
  run w o ms (getMulti us) = Some s ->
  Forall P (emitted s).
Proof.
  intros Hall Hrun. pose proof (run_conserves w o _ _ _ Hrun) as Hperm.
  cbn in Hperm. rewrite <- Hperm in Hall. now apply Forall_app in Hall as [? _].
Qed.


(** *** Schedules *)

Lemma run_app ms1 : forall ms2 s,
  run w o (ms1 ++ ms2) s
  = match run w o ms1 s with
    | Some s' => run w o ms2 s'
    | None => None
    end.
Proof.
  induction ms1 as [|m ms1 IH]; intros ms2 s; [reflexivity|].
  cbn [app run]. destruct (step w o m s); [apply IH|reflexivity].
Qed.

(** The tasks in flight can all get through, in their order. *)
Lemma run_drain : forall infl p l e,
  run w o (replicate (length infl) (Deliver 0)) (mkStage p l infl e)
  = Some (mkStage p l [] (e ++ infl)).
Proof.
  induction infl as [|x infl IH]; intros p l e.
  - cbn. now rewrite app_nil_r.
  - cbn [length replicate run].
    assert (Hstep : step w o (Deliver 0) (mkStage p l (x :: infl) e)
                    = Some (mkStage p l infl (e ++ [x]))) by now destruct l.
    rewrite Hstep, IH. now rewrite <- app_assoc.
Qed.

(** From a state in which [out] is not closed over a task in flight, the
    stage can go on to the end. *)
Lemma run_can_finish s :
  (loop s = Finished -> inflight s = []) ->
  exists ms s', run w o ms s = Some s' /\ loop s' = Finished.
Proof.
  destruct s as [p l infl e]. cbn [loop inflight]. intros Hinv.
  destruct l as [|u| |].
  - destruct (getMulti_completes w o p (e ++ infl)) as (ms & rest & Hrun).
    exists (replicate (length infl) (Deliver 0) ++ ms). eexists.
    rewrite run_app, run_drain. split; [exact Hrun|reflexivity].
  - exists (replicate (length infl) (Deliver 0) ++ [Forward; Close]). eexists.
    rewrite run_app, run_drain. cbn. split; reflexivity.
  - exists (replicate (length infl) (Deliver 0) ++ [Close]). eexists.
    rewrite run_app, run_drain. cbn. split; reflexivity.
  - exists []. eexists. cbn. split; reflexivity.
Qed.

(** Once [out] is closed nothing moves. *)
Lemma step_after_close m s :
  loop s = Finished -> inflight s = [] -> step w o m s = None.
Proof.
  destruct s as [p l infl e]. cbn [loop inflight]. intros -> ->.
  now destruct m.
Qed.

(** *** Tolerant tasks *)

Lemma hydrate_tolerant u :
  onlyFieldMismatches w ->
  IgnoreErrFieldMismatch o = true ->
  Err u = None ->
  Err (hydrate w o u) = None /\
  (len (Entities (hydrate w o u)) + dropped w u = len (Entities u))%nat.
Proof.
  intros Hw Hon Hu. unfold dropped.
  destruct (Hw (elems (Entities u))) as [Hnone|(mErr & Hget & Hne & Hlen & Hall)].
  - unfold hydrate, GetMulti. rewrite Hnone, Hu. cbn. split; [reflexivity|].
    unfold len. rewrite elems_fetched, length_map. lia.
  - rewrite Hget.
    rewrite (hydrate_tolerates_field_mismatches w o u mErr Hon Hget).
    + cbn. split; [reflexivity|].
      pose proof (survivors_length (List.map (fetch w) (elems (Entities u))) mErr) as Hs.
      rewrite length_map in Hs. specialize (Hs Hlen Hall). unfold len. cbn. lia.
    + unfold len. now destruct (elems (Entities u)).
    + exact Hlen.
    + exact Hall.
Qed.

Lemma outputs_tolerant us :
  onlyFieldMismatches w ->
  IgnoreErrFieldMismatch o = true ->
  Forall (fun u => Err u = None) us ->
  Forall (fun u => Err u = None) (outputs w o us) /\
  (hydratedCount (outputs w o us) + sum_list_with (dropped w) us = hydratedCount us)%nat.
Proof.
  intros Hw Hon Hall. induction Hall as [|u us Hu Hall [IHe IHn]].
  - split; [constructor|reflexivity].
  - cbn [outputs]. rewrite Hu. cbn [errIsNil negb].
    destruct (hydrate_tolerant u Hw Hon Hu) as [He Hn].
    split; [constructor; assumption|].
    rewrite !hydratedCount_cons, He, Hu. cbn [errIsNil sum_list_with]. lia.
Qed.

End StageMore.

(** ** The earlier revision of the generator *)

Section Rev1Facts.

Context {Key Entity QuerySpec : Type}.

Implicit Types (w : World Key Entity QuerySpec)
  (o : Rev1Gen.Options Key Entity QuerySpec) (q : QuerySpec).

(** With a nil cursor [process] never comes back asking for another
    round: it is done, or it has an error, or it panics. *)
Lemma process_nil_cursor w o page cell isDone entities err :
  Rev1Gen.process w o page None = Rev1Gen.Returned cell isDone entities err ->
  err <> None \/ isDone = true.
Proof.
  unfold Rev1Gen.process. intros H.
  destruct (Rev1Gen.Query o) as [q|]; [|discriminate].
  destruct (Rev1Gen.FetchLimit o <? 0)%Z; [discriminate|].
  destruct (Rev1Gen.nextKeys _ _ _ _ _ _ _ _) as [d ents|ents e|]; [| |discriminate].
  - destruct d.
    + destruct (len ents =? 0)%nat; [injection H as _ <- _ _; now right|].
      destruct (GetMulti w ents) as [fetched [e|]].
      * destruct (negb _); [injection H as _ _ _ <-; now left|].
        destruct (Rev1.filter fetched (Some e)) as [filtered [e'|]];
          injection H as _ <- _ <-; [now left|now right].
      * injection H as _ <- _ _. now right.
    + destruct (cursorFault w page); [|discriminate].
      injection H as _ _ _ <-. now left.
  - injection H as _ _ _ <-. now left.
Qed.

Lemma generate_one_round w o fuel page :
  (length (fst (Rev1Gen.generate (S fuel) w o page)) <= 1)%nat /\
  snd (Rev1Gen.generate (S fuel) w o page) <> Running.
Proof.
  cbn [Rev1Gen.generate].
  destruct (Rev1Gen.process w o page None) as [cell isDone entities err|] eqn:Hp;
    [|cbn; split; [lia|discriminate]].
  destruct (cancelled w page); [cbn; split; [lia|discriminate]|].
  apply process_nil_cursor in Hp.
  destruct (negb (errIsNil err) || isDone) eqn:Hstop; [cbn; split; [lia|discriminate]|].
  apply orb_false_iff in Hstop as [He Hd].
  destruct Hp as [Hp|Hp]; [destruct err; [discriminate|congruence]|congruence].
Qed.

(** A page that is filled: all its keys are there and the iterator raises
    nothing. *)
Lemma Rev1_nextKeys_full w o q f page start n : forall i entities,
  Rev1Gen.Appender o = Some f ->
  (forall j, nextFault w page j = None) ->
  (start + i + n <= length (results w q))%nat ->
  exists ents,
    Rev1Gen.nextKeys w o q page start n i entities = Rev1Gen.PageKeys false ents.
Proof.
  induction n as [|n IH]; intros i entities Hf Hnext Hlen; [now eexists|].
  cbn [Rev1Gen.nextKeys]. unfold Next. rewrite Hnext, Hf.
  destruct (results w q !! (start + i)%nat) as [k|] eqn:Hk.
  - apply IH; [assumption..|lia].
  - apply lookup_ge_None_1 in Hk. lia.
Qed.

(** A first page that meets the end of the results. *)
Lemma Rev1_nextKeys_stubs w o q f (g : Z -> Key -> Entity) page n :
  Rev1Gen.Appender o = Some f ->
  (forall es i k, f es i k = append es (g i k)) ->
  (forall j, nextFault w page j = None) ->
  forall i acc,
    (i <= length (results w q))%nat ->
    (length (results w q) < i + n)%nat ->
    Rev1Gen.nextKeys w o q page 0 n i (Some acc)
    = Rev1Gen.PageKeys true
        (Some (acc ++ stubs (fun j k _ => g j k) None i (drop i (results w q)))).
Proof.
  intros Hf Hg Hnext.
  induction n as [|n IH]; intros i acc Hi Hlen; [lia|].
  cbn [Rev1Gen.nextKeys]. unfold Next. rewrite Hnext, Hf. cbn [Nat.add].
  destruct (results w q !! i) as [k|] eqn:Hk.
  - pose proof (lookup_lt_Some _ _ _ Hk).
    { rewrite Hg. unfold append. cbn [elems]. rewrite IH by lia.
      rewrite (drop_S _ _ _ Hk).
      assert (Hs : forall ks, stubs (fun j k0 (_ : option Key) => g j k0) None i (k :: ks)
                     = g (Z.of_nat i) k
                       :: stubs (fun j k0 (_ : option Key) => g j k0) None (S i) ks).
      { intros ks. unfold stubs. rewrite imap_cons, Nat.add_0_r. f_equal.
        apply imap_ext. intros j x _. cbn. do 2 f_equal. lia. }
      rewrite Hs, <- app_assoc. reflexivity. }
  - apply lookup_ge_None_1 in Hk. rewrite drop_ge by assumption.
    cbn. now rewrite app_nil_r.
Qed.

End Rev1Facts.

(** ** Properties of the stages *)

(** X5.  When the Appender appends at most one entity per call, no Unit
    holds more than FetchLimit entities: neither one [query] sends, nor
    one the reader of [getMulti]'s output receives, whatever the store,
    the context and the schedule do. *)
Theorem units_hold_at_most_FetchLimit {Key Entity QuerySpec : Type}
    (w : World Key Entity QuerySpec) (o : Options Key Entity QuerySpec) :
  (forall f, Appender o = Some f ->
     forall es j k pk, (len (f es j k pk) <= S (len es))%nat) ->
  forall fuel,
    Forall (fun u => (len (Entities u) <= Z.to_nat (FetchLimit o))%nat)
      (fst (query fuel w o)) /\
    forall ms s,
      run w o ms (getMulti (fst (query fuel w o))) = Some s ->
      Forall (fun u => (len (Entities u) <= Z.to_nat (FetchLimit o))%nat) (emitted s).
Proof.
  intros Hf fuel.
  pose proof (queryLoop_chunk_bound w o Hf fuel 0 None) as Hq.
  split; [exact Hq|].
  intros ms s Hrun.
  eapply run_emitted_Forall; [|exact Hrun].
  now apply outputs_len_bound.
Qed.

Lemma units_hold_at_most_FetchLimit_witness :
  Forall (fun u : Unit nat => (len (Entities u) <= 2)%nat)
    (fst (query 3 (sampleWorld [1; 2; 3] noError) (sampleOptions 2 false))).
Proof.
  refine (proj1 (units_hold_at_most_FetchLimit (sampleWorld [1; 2; 3] noError)
                   (sampleOptions 2 false) _ 3%nat)).
  intros f [= <-] es j k pk. unfold len, append. cbn [elems].
  rewrite length_app. cbn. lia.
Defined.

(** X6.  In a run in which the store and the context raise nothing, with
    an Appender that appends the stub [g i k parentKey], the stream of
    [query] is known Unit by Unit: page [p] carries the stubs of the keys
    [p*C .. p*C + C - 1] with the indices [0 .. C-1], and the pages put
    together are the results of the query, each key once and in order. *)
Theorem query_pages_in_order {Key Entity QuerySpec : Type}
    (w : World Key Entity QuerySpec) (o : Options Key Entity QuerySpec)
    (q : QuerySpec) (f : AppenderFn Key Entity)
    (g : Z -> Key -> option Key -> Entity) (C fuel : nat) :
  quiet w ->
  Query o = Some q ->
  Appender o = Some f ->
  (forall es i k pk, f es i k pk = append es (g i k pk)) ->
  FetchLimit o = Z.of_nat C ->
  (1 <= C)%nat ->
  (length (results w q) / C < fuel)%nat ->
  query fuel w o
  = ((fun p => mkUnit (Some (stubs g (ParentKey o) 0 (pageKeys C (results w q) p))) None)
       <$> seq 0 (length (results w q) / C + 1),
     Closed) /\
  mjoin (pageKeys C (results w q) <$> seq 0 (length (results w q) / C + 1))
  = results w q.
Proof.
  intros Hquiet Hq Hap Hf Hlimit HC Hfuel. split.
  - pose proof (queryLoop_pages w o q f g C Hquiet Hq Hap Hf Hlimit HC fuel 0 None) as H.
    cbn in H. rewrite Nat.sub_0_r in H. apply H; [reflexivity|lia|assumption].
  - rewrite pageKeys_join by assumption. cbn [Nat.mul drop]. apply take_ge.
    pose proof (Nat.div_mod (length (results w q)) C ltac:(lia)).
    pose proof (Nat.mod_upper_bound (length (results w q)) C ltac:(lia)).
    nia.
Qed.

Lemma query_pages_in_order_witness :
  query 2 (sampleWorld [1; 2; 3] noError) (sampleOptions 2 false)
  = ([mkUnit (Some [1; 2]) None; mkUnit (Some [3]) None], Closed).
Proof.
  refine (proj1 (query_pages_in_order (sampleWorld [1; 2; 3] noError)
                   (sampleOptions 2 false) tt (fun es _ k _ => append es k)
                   (fun _ k _ => k) 2 2 _ _ _ _ _ _ _)).
  - repeat split.
  - reflexivity.
  - reflexivity.
  - reflexivity.
  - reflexivity.
  - lia.
  - cbn. lia.
Defined.

(** X7.  With a FetchLimit [C >= 1], whatever the store and the context
    do, [query] sends at most [floor(N / C) + 1] Units for a query with
    [N] results and its goroutine is gone after as many pages. *)
Theorem query_ends_within_the_results {Key Entity QuerySpec : Type}
    (w : World Key Entity QuerySpec) (o : Options Key Entity QuerySpec)
    (q : QuerySpec) (C : nat) :
  Query o = Some q ->
  FetchLimit o = Z.of_nat C ->
  (1 <= C)%nat ->
  forall fuel,
    (length (fst (query fuel w o)) <= length (results w q) / C + 1)%nat /\
    ((length (results w q) / C < fuel)%nat -> snd (query fuel w o) <> Running).
Proof.
  intros Hq Hlimit HC fuel.
  pose proof (queryLoop_bound w o q C Hq Hlimit HC fuel 0 None) as H.
  cbn in H. now rewrite Nat.sub_0_r in H.
Qed.

Lemma query_ends_within_the_results_witness :
  (length (fst (query 5 (secondPageFails [1; 2; 3]) (sampleOptions 1 false)))
   <= length [1; 2; 3]%nat / 1 + 1)%nat.
Proof.
  refine (proj1 (query_ends_within_the_results (secondPageFails [1; 2; 3])
                   (sampleOptions 1 false) tt 1 _ _ _ 5%nat)).
  - reflexivity.
  - reflexivity.
  - lia.
Defined.

(** X8.  When the context is found cancelled at page [p], [query] sends
    no chunk from that page on: at most [p] Units carry a chunk.  An error
    of the iterator or of the cursor is sent without looking at the
    context, so one more Unit can follow; in any case the goroutine is gone
    after page [p]. *)
Theorem query_sends_no_chunk_after_cancellation {Key Entity QuerySpec : Type}
    (w : World Key Entity QuerySpec) (o : Options Key Entity QuerySpec) (p : nat) :
  cancelled w p = true ->
  forall fuel,
    (length (chunkUnits (fst (query fuel w o))) <= p)%nat /\
    (length (fst (query fuel w o)) <= S p)%nat /\
    ((p < fuel)%nat -> snd (query fuel w o) <> Running).
Proof.
  intros Hp fuel.
  pose proof (queryLoop_cancelled w o p Hp fuel 0 None ltac:(lia)) as H.
  now rewrite Nat.sub_0_r in H.
Qed.

Lemma query_sends_no_chunk_after_cancellation_witness :
  (length (chunkUnits (fst (query 5 (cancelledOnSecondPage [1; 2; 3])
                              (sampleOptions 1 false)))) <= 1)%nat.
Proof.
  refine (proj1 (query_sends_no_chunk_after_cancellation
                   (cancelledOnSecondPage [1; 2; 3]) (sampleOptions 1 false) 1 _ 5%nat)).
  reflexivity.
Defined.

(** X9.  [query] called with a FetchLimit of 0 (as a caller of [query]
    can, [New] excludes it) asks for no key at all: as long as the cursor
    raises nothing and the context is not cancelled it sends one empty,
    non-nil chunk per page and never comes to an end. *)
Theorem query_with_zero_FetchLimit_never_ends {Key Entity QuerySpec : Type}
    (w : World Key Entity QuerySpec) (o : Options Key Entity QuerySpec)
    (q : QuerySpec) :
  Query o = Some q ->
  FetchLimit o = 0%Z ->
  (forall p, cursorFault w p = None) ->
  (forall p, cancelled w p = false) ->
  forall fuel,
    query fuel w o = (replicate fuel (mkUnit (Some []) None), Running).
Proof.
  intros Hq Hlimit Hcursor Hcancel fuel. unfold query.
  now apply (query_zero_limit_spins w o q).
Qed.

Lemma query_with_zero_FetchLimit_never_ends_witness :
  query 3 (sampleWorld [1; 2] noError) (sampleOptions 0 false)
  = (replicate 3 (mkUnit (Some []) None), Running).
Proof.
  apply (query_with_zero_FetchLimit_never_ends (sampleWorld [1; 2] noError)
           (sampleOptions 0 false) tt); reflexivity.
Defined.

(** X10.  [query] makes up no error: the error of a Unit it sends is an
    error the iterator or the cursor raised on some page, wrapped once by
    errors.WithStack. *)
Theorem query_errors_come_from_the_store {Key Entity QuerySpec : Type}
    (w : World Key Entity QuerySpec) (o : Options Key Entity QuerySpec)
    (fuel : nat) (u : Unit Entity) (e : error) :
  u ∈ fst (query fuel w o) ->
  Err u = Some e ->
  exists e0 p,
    e = withStack e0 /\
    ((exists j, nextFault w p j = Some e0) \/ cursorFault w p = Some e0).
Proof.
  intros Hin He.
  pose proof (queryLoop_errors_from_store w o fuel 0 None) as Hall.
  rewrite Forall_forall in Hall. exact (Hall u Hin e He).
Qed.

Lemma query_errors_come_from_the_store_witness :
  exists e0 p,
    withStack (errorString "iterator") = withStack e0 /\
    ((exists j, nextFault (secondPageFails [1; 2]) p j = Some e0) \/
     cursorFault (secondPageFails [1; 2]) p = Some e0).
Proof.
  apply (query_errors_come_from_the_store (secondPageFails [1; 2])
           (sampleOptions 1 false) 2
           (mkUnit None (Some (withStack (errorString "iterator"))))).
  - cbn. apply list_elem_of_In. right. left. reflexivity.
  - reflexivity.
Defined.

(** X11.  [out] is closed only when no task is left that has not sent its
    Unit, and once it is closed nothing moves any more: there is no send on
    the closed channel. *)
Theorem out_closed_after_last_send {Key Entity QuerySpec : Type}
    (w : World Key Entity QuerySpec) (o : Options Key Entity QuerySpec)
    (us : list (Unit Entity)) (ms : list Move) (s : Stage Entity) :
  run w o ms (getMulti us) = Some s ->
  loop s = Finished ->
  inflight s = [] /\ forall m, step w o m s = None.
Proof.
  intros Hrun Hfin.
  assert (Hin : inflight s = []).
  { eapply run_finished; [exact Hrun|discriminate|exact Hfin]. }
  split; [exact Hin|]. intros m. now apply step_after_close.
Qed.

Lemma out_closed_after_last_send_witness :
  step (sampleWorld [] noError) (sampleOptions 1 false) (Deliver 0)
    (mkStage [] Finished [] [mkUnit (Some [1%nat]) None]) = None.
Proof.
  refine (proj2 (out_closed_after_last_send (sampleWorld [] noError)
                   (sampleOptions 1 false) [mkUnit (Some [1%nat]) None]
                   [Receive; Receive; Deliver 0; Close]
                   (mkStage [] Finished [] [mkUnit (Some [1%nat]) None]) _ _)
            (Deliver 0)).
  - vm_compute. reflexivity.
  - reflexivity.
Defined.

(** X12.  At every moment of every run of [getMulti] the Units received
    so far are among those of [outputs], each at most as often as there:
    one Unit per chunk at most, and never more Units than came in. *)
Theorem getMulti_sends_each_unit_once {Key Entity QuerySpec : Type}
    (w : World Key Entity QuerySpec) (o : Options Key Entity QuerySpec)
    (us : list (Unit Entity)) (ms : list Move) (s : Stage Entity) :
  run w o ms (getMulti us) = Some s ->
  emitted s ⊆+ outputs w o us /\ (length (emitted s) <= length us)%nat.
Proof.
  intros Hrun. pose proof (run_emitted_submseteq w o us ms s Hrun) as Hsub.
  split; [exact Hsub|].
  apply submseteq_length in Hsub. pose proof (outputs_length w o us). lia.
Qed.

Lemma getMulti_sends_each_unit_once_witness :
  (length (emitted (mkStage [mkUnit (Some [3%nat]) None] Ranging
                      [mkUnit (Some [1%nat]) None] [mkUnit (Some [2%nat]) None]))
   <= 3)%nat.
Proof.
  refine (proj2 (getMulti_sends_each_unit_once (sampleWorld [] noError)
                   (sampleOptions 1 false)
                   [mkUnit (Some [1%nat]) None; mkUnit (Some [2%nat]) None;
                    mkUnit (Some [3%nat]) None]
                   [Receive; Receive; Deliver 1]
                   (mkStage [mkUnit (Some [3%nat]) None] Ranging
                      [mkUnit (Some [1%nat]) None] [mkUnit (Some [2%nat]) None]) _)).
  vm_compute. reflexivity.
Defined.

(** X13.  [getMulti] cannot get stuck: from wherever a run has come to,
    some schedule leads on to the closing of [out], as long as the reader
    keeps receiving. *)
Theorem getMulti_can_always_finish {Key Entity QuerySpec : Type}
    (w : World Key Entity QuerySpec) (o : Options Key Entity QuerySpec)
    (us : list (Unit Entity)) (ms : list Move) (s : Stage Entity) :
  run w o ms (getMulti us) = Some s ->
  exists ms' s', run w o ms' s = Some s' /\ loop s' = Finished.
Proof.
  intros Hrun. apply run_can_finish.
  intros Hfin. eapply run_finished; [exact Hrun|discriminate|exact Hfin].
Qed.

Lemma getMulti_can_always_finish_witness :
  exists ms' s',
    run (sampleWorld [] noError) (sampleOptions 1 false) ms'
      (mkStage [mkUnit (Some [3%nat]) None] Ranging
         [mkUnit (Some [1%nat]) None] [mkUnit (Some [2%nat]) None]) = Some s' /\
    loop s' = Finished.
Proof.
  apply (getMulti_can_always_finish (sampleWorld [] noError) (sampleOptions 1 false)
           [mkUnit (Some [1%nat]) None; mkUnit (Some [2%nat]) None;
            mkUnit (Some [3%nat]) None]
           [Receive; Receive; Deliver 1]).
  vm_compute. reflexivity.
Defined.

(** X14.  The Unit a task sends for a chunk carries entities of that
    chunk as fetched, in their order, or none: a task never adds an entity
    and never sends a longer chunk than it was given. *)
Theorem hydrate_sends_part_of_the_chunk {Key Entity QuerySpec : Type}
    (w : World Key Entity QuerySpec) (o : Options Key Entity QuerySpec)
    (u : Unit Entity) :
  elems (Entities (hydrate w o u)) `sublist_of` List.map (fetch w) (elems (Entities u)) /\
  (len (Entities (hydrate w o u)) <= len (Entities u))%nat.
Proof.
  split; [apply hydrate_sublist|apply hydrate_len].
Qed.

(** X15.  With IgnoreErrFieldMismatch on, a task whose batch-fetch
    reports only field mismatches (a MultiError of the chunk's length,
    every entry nil or a field mismatch) sends the entities with a nil
    entry, as fetched, and no error. *)
Theorem tolerant_task_drops_field_mismatches {Key Entity QuerySpec : Type}
    (w : World Key Entity QuerySpec) (o : Options Key Entity QuerySpec)
    (u : Unit Entity) (mErr : list (option error)) :
  IgnoreErrFieldMismatch o = true ->
  getMultiErr w (elems (Entities u)) = Some (MultiError mErr) ->
  len (Entities u) <> 0%nat ->
  length mErr = len (Entities u) ->
  Forall (fun e => e = None \/ isErrFieldMismatch e = true) mErr ->
  hydrate w o u
  = mkUnit (Some (survivors (List.map (fetch w) (elems (Entities u))) mErr)) None.
Proof.
  intros Hon Hget Hne Hlen Hall.
  now apply hydrate_tolerates_field_mismatches.
Qed.

Lemma tolerant_task_drops_field_mismatches_witness :
  hydrate (sampleWorld [] mismatchOnTwo) (sampleOptions 10 true)
    (mkUnit (Some [1; 2; 3]%nat) None)
  = mkUnit (Some [1; 3]%nat) None.
Proof.
  apply (tolerant_task_drops_field_mismatches (sampleWorld [] mismatchOnTwo)
           (sampleOptions 10 true) (mkUnit (Some [1; 2; 3]%nat) None)
           [None; Some (ErrFieldMismatch "testHoge" "OldName" "no such struct field"); None]).
  - reflexivity.
  - vm_compute. reflexivity.
  - unfold len. cbn. lia.
  - reflexivity.
  - repeat (constructor; [first [left; reflexivity | right; reflexivity]|]).
    constructor.
Defined.



(** ** The pipeline with tolerance on *)

(** The stream of [query] in a quiet run, for whatever fuel it was closed
    with. *)
Lemma quiet_query_closed {Key Entity QuerySpec : Type}
    (w : World Key Entity QuerySpec) (o : Options Key Entity QuerySpec)
    (q : QuerySpec) (f : AppenderFn Key Entity) (C fuel : nat)
    (us : list (Unit Entity)) :
  quiet w ->
  Query o = Some q ->
  Appender o = Some f ->
  appendsOne f ->
  FetchLimit o = Z.of_nat C ->
  (1 <= C)%nat ->
  query fuel w o = (us, Closed) ->
  Forall (fun u => Err u = None) us /\
  hydratedCount us = length (results w q).
Proof.
  intros Hquiet Hq Hf Hone Hlimit HC Hfuel.
  set (N := length (results w q)).
  destruct (queryLoop_quiet w o q f C Hquiet Hq Hf Hone Hlimit HC
              (S (N / C)) 0 None) as (us' & Hquery & Hall & _ & Hsum & _).
  { simpl. lia. }
  { simpl. rewrite Nat.sub_0_r. fold N. lia. }
  simpl in Hsum. rewrite Nat.sub_0_r in Hsum.
  assert (us = us') as ->; [|now split].
  pose proof (queryLoop_fuel_mono w o fuel (Nat.max fuel (S (N / C))) 0 None) as H1.
  pose proof (queryLoop_fuel_mono w o (S (N / C)) (Nat.max fuel (S (N / C))) 0 None) as H2.
  unfold query in Hfuel. rewrite Hfuel in H1. rewrite Hquery in H2.
  cbn [snd] in H1, H2.
  rewrite H1 in H2 by (discriminate || lia).
  specialize (H2 ltac:(discriminate) ltac:(lia)). congruence.
Qed.

(** X17.  A query with [N] results, a shaping function that appends one
    stub per key, an iterator and a cursor that raise no error, a context
    that is not cancelled, a chunk size [C >= 1], a batch-fetch that may
    report field mismatches (and nothing else), and IgnoreErrFieldMismatch
    on: every run of the pipeline to the closing of its output sends no
    error, and the entities it sends and the entities with a field mismatch
    add up to the [N] results. *)
Theorem tolerant_pipeline_counts_survivors {Key Entity QuerySpec : Type}
    (w : World Key Entity QuerySpec) (h : gmap nat (Options Key Entity QuerySpec))
    (l : nat) (opts : Options Key Entity QuerySpec) (q : QuerySpec)
    (f : AppenderFn Key Entity) (N C : nat) :
  h !! l = Some opts ->
  Query opts = Some q ->
  Appender opts = Some f ->
  appendsOne f ->
  FetchLimit opts = Z.of_nat C ->
  (1 <= C)%nat ->
  IgnoreErrFieldMismatch opts = true ->
  quiet w ->
  onlyFieldMismatches w ->
  length (results w q) = N ->
  forall fuel ms s,
    schedule fuel w h (Some l) ms = Some s ->
    loop s = Finished ->
    Forall (fun u => Err u = None) (emitted s) /\
    (hydratedCount (emitted s) + sum_list_with (dropped w) (fst (query fuel w opts))
     = N)%nat.
Proof.
  intros Hl Hq Hf Hone Hlimit HC Hon Hquiet Hw HN fuel ms s Hrun Hfin.
  assert (Hopts : stageOptions h (Some l) = Some opts)
    by (apply stageOptions_nonzero; [assumption|lia]).
  unfold schedule, pipeline in Hrun. rewrite Hopts in Hrun.
  destruct (query fuel w opts) as [us [| |]] eqn:Hfuel; try discriminate.
  destruct (quiet_query_closed w opts q f C fuel us Hquiet Hq Hf Hone Hlimit HC Hfuel)
    as [Hall Hsum].
  destruct (outputs_tolerant w opts us Hw Hon Hall) as [Hnoerr Hcount].
  pose proof (getMulti_outputs w opts us ms s Hrun Hfin) as Hperm.
  cbn [fst]. split.
  - now rewrite Hperm.
  - unfold hydratedCount in *. rewrite Hperm. lia.
Qed.

Lemma tolerant_pipeline_counts_survivors_witness :
  (hydratedCount
     (emitted (mkStage [] Finished []
                 [mkUnit (Some [3]) None; mkUnit (Some [1]) None]))
   + sum_list_with (dropped (sampleWorld [1; 2; 3] mismatchOnTwo))
       (fst (query 3 (sampleWorld [1; 2; 3] mismatchOnTwo) (sampleOptions 2 true)))
   = 3)%nat.
Proof.
  refine (proj2 (tolerant_pipeline_counts_survivors
            (sampleWorld [1; 2; 3] mismatchOnTwo) {[ 0%nat := sampleOptions 2 true ]}
            0 (sampleOptions 2 true) tt (fun es _ k _ => append es k) 3 2
            _ _ _ _ _ _ _ _ _ _
            3%nat [Receive; Receive; Deliver 1; Deliver 0; Receive; Close]
            (mkStage [] Finished [] [mkUnit (Some [3]) None; mkUnit (Some [1]) None])
            _ _)).
  - reflexivity.
  - reflexivity.
  - reflexivity.
  - intros es i k pk. exists k. reflexivity.
  - reflexivity.
  - lia.
  - reflexivity.
  - repeat split.
  - intros es. unfold sampleWorld, mismatchOnTwo. cbn [getMultiErr].
    destruct (decide (2%nat ∈ es)) as [Hin|Hout]; [right|now left].
    eexists. split; [reflexivity|]. split; [|split].
    + intros ->. now apply not_elem_of_nil in Hin.
    + apply length_fmap.
    + apply Forall_fmap, Forall_forall. intros e _. cbn.
      destruct (decide (e = 2%nat)); [now right|now left].
  - reflexivity.
  - vm_compute. reflexivity.
  - reflexivity.
Defined.

(** ** More on [New] *)

(** X18.  [New(ctx, nil)] builds its Options in a place of its own: the
    pointer it goes on with referred to nothing before, the new Options
    hold the default FetchLimit and zero values, and every Options the
    heap held stays as it was. *)
Theorem New_nil_allocates {Key Entity QuerySpec : Type}
    (h : gmap nat (Options Key Entity QuerySpec)) :
  h !! (New h None).2 = None /\
  (New h None).1 !! (New h None).2 = Some (mkOptions None 100 false None None) /\
  forall l opts, h !! l = Some opts -> (New h None).1 !! l = Some opts.
Proof.
  cbn [New fst snd].
  assert (Hfresh : h !! fresh (dom h) = None)
    by (apply not_elem_of_dom, is_fresh).
  split; [exact Hfresh|]. split; [apply lookup_insert_eq|].
  intros l opts Hl. rewrite lookup_insert_ne; [exact Hl|congruence].
Qed.

Lemma New_nil_allocates_witness :
  (New {[ 0%nat := sampleOptions 0 false ]} None).1 !! 0%nat
  = Some (sampleOptions 0 false).
Proof.
  refine (proj2 (proj2 (New_nil_allocates {[ 0%nat := sampleOptions 0 false ]}))
            0%nat (sampleOptions 0 false) _).
  reflexivity.
Defined.

(** X19.  Normalising twice is normalising once: [New] on the Options
    [New] has left behind writes nothing more and keeps the pointer. *)
Theorem New_twice {Key Entity QuerySpec : Type}
    (h : gmap nat (Options Key Entity QuerySpec)) (o : option nat) :
  New (New h o).1 (Some (New h o).2) = New h o.
Proof.
  destruct o as [l|]; cbn [New].
  - destruct (h !! l) as [opts|] eqn:Hl; cbn [fst snd].
    + destruct (Z.eqb_spec (FetchLimit opts) 0) as [Hz|Hnz]; cbn [fst snd New].
      * rewrite lookup_insert_eq. reflexivity.
      * rewrite Hl. destruct (Z.eqb_spec (FetchLimit opts) 0); [contradiction|reflexivity].
    + cbn [New]. now rewrite Hl.
  - cbn [fst snd New]. rewrite lookup_insert_eq. reflexivity.
Qed.

(** X20.  A negative FetchLimit is not normalised: [New] leaves it as it
    is, and [query] panics on its first page (the capacity of the chunk it
    makes is negative) before it has sent anything, so there is no pipeline
    to read from. *)
Theorem negative_FetchLimit_panics {Key Entity QuerySpec : Type}
    (h : gmap nat (Options Key Entity QuerySpec)) (l : nat)
    (opts : Options Key Entity QuerySpec) (q : QuerySpec) :
  h !! l = Some opts ->
  Query opts = Some q ->
  (FetchLimit opts < 0)%Z ->
  stageOptions h (Some l) = Some opts /\
  forall (w : World Key Entity QuerySpec) fuel,
    query (S fuel) w opts = ([], Panicked) /\
    pipeline (S fuel) w h (Some l) = None.
Proof.
  intros Hl Hquery Hneg.
  assert (Hopts : stageOptions h (Some l) = Some opts)
    by (apply stageOptions_nonzero; [assumption|lia]).
  split; [exact Hopts|]. intros w fuel.
  assert (Hq : query (S fuel) w opts = ([], Panicked)).
  { unfold query. cbn [queryLoop]. rewrite Hquery.
    destruct (Z.ltb_spec (FetchLimit opts) 0); [reflexivity|lia]. }
  split; [exact Hq|]. unfold pipeline. now rewrite Hopts, Hq.
Qed.

Lemma negative_FetchLimit_panics_witness :
  query 1 (sampleWorld [1; 2] noError) (sampleOptions (-1) false) = ([], Panicked).
Proof.
  refine (proj1 (proj2 (negative_FetchLimit_panics
            {[ 0%nat := sampleOptions (-1) false ]} 0 (sampleOptions (-1) false) tt
            _ _ _)
            (sampleWorld [1; 2] noError) 0%nat)).
  - reflexivity.
  - reflexivity.
  - reflexivity.
Defined.

(** ** The earlier revision *)

Lemma Rev1_stream_nonzero {Key Entity QuerySpec : Type}
    (w : World Key Entity QuerySpec)
    (h : gmap nat (Rev1Gen.Options Key Entity QuerySpec)) (l : nat)
    (opts : Rev1Gen.Options Key Entity QuerySpec) (fuel : nat) :
  h !! l = Some opts ->
  Rev1Gen.FetchLimit opts <> 0%Z ->
  Rev1Gen.stream fuel w h (Some l) = Some (Rev1Gen.generate fuel w opts 0).
Proof.
  intros Hl Hnz. unfold Rev1Gen.stream, Rev1Gen.New. rewrite Hl.
  destruct (Z.eqb_spec (Rev1Gen.FetchLimit opts) 0); [contradiction|].
  now rewrite Hl.
Qed.

(** X21.  The generator of the earlier revision sends at most one Unit,
    whatever its Options, the store and the context: its cursor stays nil,
    so [process] is done, fails or panics in the first round, and the
    goroutine is gone after that round. *)
Theorem Rev1_sends_at_most_one_unit {Key Entity QuerySpec : Type}
    (w : World Key Entity QuerySpec)
    (h : gmap nat (Rev1Gen.Options Key Entity QuerySpec)) (o : option nat)
    (fuel : nat) (us : list (Unit Entity)) (e : Ending) :
  Rev1Gen.stream (S fuel) w h o = Some (us, e) ->
  (length us <= 1)%nat /\ e <> Running.
Proof.
  unfold Rev1Gen.stream. destruct (Rev1Gen.New h o) as [h' l].
  destruct (h' !! l) as [opts|]; [|discriminate].
  intros H. pose proof (generate_one_round w opts fuel 0) as Hone.
  assert (Hg : Rev1Gen.generate (S fuel) w opts 0 = (us, e)) by congruence.
  now rewrite Hg in Hone.
Qed.

Lemma Rev1_sends_at_most_one_unit_witness :
  (length [mkUnit (Some [1; 2]%nat) None] <= 1)%nat /\ Closed <> Running.
Proof.
  apply (Rev1_sends_at_most_one_unit (sampleWorld [1; 2] noError)
           {[ 0%nat := sampleRev1Options 5 false ]} (Some 0%nat) 3).
  vm_compute. reflexivity.
Defined.

(** X22.  The earlier revision panics as soon as a page is filled: a query
    with at least FetchLimit results, an iterator and a cursor that raise
    nothing on the first page, and the goroutine writes the new cursor
    through its nil pointer before it has sent anything. *)
Theorem Rev1_panics_on_full_page {Key Entity QuerySpec : Type}
    (w : World Key Entity QuerySpec)
    (h : gmap nat (Rev1Gen.Options Key Entity QuerySpec)) (l : nat)
    (opts : Rev1Gen.Options Key Entity QuerySpec) (q : QuerySpec)
    (f : Rev1Gen.AppenderFn Key Entity) (C fuel : nat) :
  h !! l = Some opts ->
  Rev1Gen.Query opts = Some q ->
  Rev1Gen.Appender opts = Some f ->
  Rev1Gen.FetchLimit opts = Z.of_nat C ->
  (1 <= C)%nat ->
  (forall j, nextFault w 0 j = None) ->
  cursorFault w 0 = None ->
  (C <= length (results w q))%nat ->
  Rev1Gen.stream (S fuel) w h (Some l) = Some ([], Panicked).
Proof.
  intros Hl Hq Hf Hlimit HC Hnext Hcursor Hlen.
  rewrite (Rev1_stream_nonzero w h l opts) by (assumption || lia).
  cbn [Rev1Gen.generate]. unfold Rev1Gen.process.
  rewrite Hq, Hlimit, Nat2Z.id. cbv zeta.
  change (default 0%nat None) with 0%nat.
  destruct (Z.ltb_spec (Z.of_nat C) 0); [lia|].
  destruct (Rev1_nextKeys_full w opts q f 0 0 C 0 make0 Hf Hnext ltac:(cbn; lia))
    as [ents ->].
  now rewrite Hcursor.
Qed.

Lemma Rev1_panics_on_full_page_witness :
  Rev1Gen.stream 1 (sampleWorld [1; 2; 3] noError)
    {[ 0%nat := sampleRev1Options 2 false ]} (Some 0%nat)
  = Some ([], Panicked).
Proof.
  apply (Rev1_panics_on_full_page (sampleWorld [1; 2; 3] noError)
           {[ 0%nat := sampleRev1Options 2 false ]} 0 (sampleRev1Options 2 false)
           tt (fun es _ k => append es k) 2 0).
  - reflexivity.
  - reflexivity.
  - reflexivity.
  - reflexivity.
  - lia.
  - reflexivity.
  - reflexivity.
  - cbn. lia.
Defined.

(** X23.  The earlier revision does stream a query with fewer than
    FetchLimit results: with an Appender that appends the stub [g i k], an
    iterator that raises nothing, a context that is not cancelled and a
    batch-fetch that succeeds, it sends one Unit with the fetched stubs of
    all the keys, in order, and closes the channel. *)
Theorem Rev1_streams_short_result {Key Entity QuerySpec : Type}
    (w : World Key Entity QuerySpec)
    (h : gmap nat (Rev1Gen.Options Key Entity QuerySpec)) (l : nat)
    (opts : Rev1Gen.Options Key Entity QuerySpec) (q : QuerySpec)
    (f : Rev1Gen.AppenderFn Key Entity) (g : Z -> Key -> Entity) (C fuel : nat) :
  h !! l = Some opts ->
  Rev1Gen.Query opts = Some q ->
  Rev1Gen.Appender opts = Some f ->
  (forall es i k, f es i k = append es (g i k)) ->
  Rev1Gen.FetchLimit opts = Z.of_nat C ->
  (length (results w q) < C)%nat ->
  (forall j, nextFault w 0 j = None) ->
  cancelled w 0 = false ->
  (forall es, getMultiErr w es = None) ->
  Rev1Gen.stream (S fuel) w h (Some l)
  = Some ([mkUnit (Some (List.map (fetch w)
                           (stubs (fun j k _ => g j k) None 0 (results w q)))) None],
          Closed).
Proof.
  intros Hl Hq Hf Hg Hlimit Hlen Hnext Hcancel Hget.
  rewrite (Rev1_stream_nonzero w h l opts) by (assumption || lia).
  cbn [Rev1Gen.generate]. unfold Rev1Gen.process.
  rewrite Hq, Hlimit, Nat2Z.id. cbv zeta.
  change (default 0%nat None) with 0%nat.
  destruct (Z.ltb_spec (Z.of_nat C) 0); [lia|].
  unfold make0.
  rewrite (Rev1_nextKeys_stubs w opts q f g 0 C Hf Hg Hnext) by (cbn; lia).
  cbn [app]. rewrite drop_0, Hcancel.
  set (es := stubs _ _ _ _).
  destruct (Nat.eqb_spec (len (Some es)) 0) as [Hz|Hnz].
  - unfold len in Hz. cbn in Hz. apply nil_length_inv in Hz. now rewrite Hz.
  - unfold GetMulti. now rewrite Hget.
Qed.

Lemma Rev1_streams_short_result_witness :
  Rev1Gen.stream 1 (sampleWorld [1; 2] noError)
    {[ 0%nat := sampleRev1Options 5 false ]} (Some 0%nat)
  = Some ([mkUnit (Some [1; 2]%nat) None], Closed).
Proof.
  apply (Rev1_streams_short_result (sampleWorld [1; 2] noError)
           {[ 0%nat := sampleRev1Options 5 false ]} 0 (sampleRev1Options 5 false)
           tt (fun es _ k => append es k) (fun _ k => k) 5 0).
  - reflexivity.
  - reflexivity.
  - reflexivity.
  - reflexivity.
  - reflexivity.
  - cbn. lia.
  - reflexivity.
  - reflexivity.
  - reflexivity.
Defined.

(** X24.  In the earlier revision a failed batch-fetch does not cost the
    reader the chunk: with IgnoreErrFieldMismatch off the one Unit sent
    carries the error, wrapped by errors.WithStack, together with the
    whole chunk as the fetch left it. *)
Theorem Rev1_error_unit_keeps_chunk {Key Entity QuerySpec : Type}
    (w : World Key Entity QuerySpec)
    (h : gmap nat (Rev1Gen.Options Key Entity QuerySpec)) (l : nat)
    (opts : Rev1Gen.Options Key Entity QuerySpec) (q : QuerySpec)
    (f : Rev1Gen.AppenderFn Key Entity) (g : Z -> Key -> Entity) (C fuel : nat)
    (err : error) :
  h !! l = Some opts ->
  Rev1Gen.Query opts = Some q ->
  Rev1Gen.Appender opts = Some f ->
  (forall es i k, f es i k = append es (g i k)) ->
  Rev1Gen.FetchLimit opts = Z.of_nat C ->
  Rev1Gen.IgnoreErrFieldMismatch opts = false ->
  (length (results w q) < C)%nat ->
  results w q <> [] ->
  (forall j, nextFault w 0 j = None) ->
  cancelled w 0 = false ->
  getMultiErr w (stubs (fun j k _ => g j k) None 0 (results w q)) = Some err ->
  Rev1Gen.stream (S fuel) w h (Some l)
  = Some ([mkUnit (Some (List.map (fetch w)
                           (stubs (fun j k _ => g j k) None 0 (results w q))))
             (Some (withStack err))],
          Closed).
Proof.
  intros Hl Hq Hf Hg Hlimit Hoff Hlen Hne Hnext Hcancel Hget.
  rewrite (Rev1_stream_nonzero w h l opts) by (assumption || lia).
  cbn [Rev1Gen.generate]. unfold Rev1Gen.process.
  rewrite Hq, Hlimit, Nat2Z.id. cbv zeta.
  change (default 0%nat None) with 0%nat.
  destruct (Z.ltb_spec (Z.of_nat C) 0); [lia|].
  unfold make0.
  rewrite (Rev1_nextKeys_stubs w opts q f g 0 C Hf Hg Hnext) by (cbn; lia).
  cbn [app]. rewrite drop_0, Hcancel.
  destruct (Nat.eqb_spec (len (Some (stubs (fun j k (_ : option Key) => g j k) None 0
                                       (results w q)))) 0) as [Hz|Hnz].
  - unfold len, stubs in Hz. cbn [elems] in Hz. rewrite length_imap in Hz.
    apply nil_length_inv in Hz. contradiction.
  - unfold GetMulti. cbn [elems option_map]. now rewrite Hget, Hoff.
Qed.

Lemma Rev1_error_unit_keeps_chunk_witness :
  Rev1Gen.stream 1 (sampleWorld [1] failsOnFirst)
    {[ 0%nat := sampleRev1Options 5 false ]} (Some 0%nat)
  = Some ([mkUnit (Some [1%nat]) (Some (withStack (errorString "boom")))], Closed).
Proof.
  apply (Rev1_error_unit_keeps_chunk (sampleWorld [1] failsOnFirst)
           {[ 0%nat := sampleRev1Options 5 false ]} 0 (sampleRev1Options 5 false)
           tt (fun es _ k => append es k) (fun _ k => k) 5 0 (errorString "boom")).
  - reflexivity.
  - reflexivity.
  - reflexivity.
  - reflexivity.
  - reflexivity.
  - reflexivity.
  - cbn. lia.
  - discriminate.
  - reflexivity.
  - reflexivity.
  - vm_compute. reflexivity.
Defined.

(** * C1 and C8 on the pipeline *)

(** C1 as it is written fails when the stream is cut short.  Two keys in
    chunks of one, a shaping function that appends one stub per key, a
    batch-fetch that never fails, and a context found cancelled when the
    second page is about to be sent: [query] returns without sending it,
    the run goes on to the closing of the output without any error Unit,
    and the reader has counted one entity of two. *)
Lemma cancelled_pipeline_delivers_fewer :
  length (results (cancelledOnSecondPage [1; 2]) tt) = 2%nat /\
  appendsOne (fun (es : slice nat) (_ : Z) (k : nat) (_ : option nat) => append es k) /\
  getMultiErr (cancelledOnSecondPage [1; 2]) = noError /\
  schedule 2 (cancelledOnSecondPage [1; 2]) {[ 0%nat := sampleOptions 1 false ]}
    (Some 0%nat) [Receive; Deliver 0; Receive; Close]
  = Some (mkStage [] Finished [] [mkUnit (Some [1]) None]) /\
  hydratedCount [mkUnit (Some [1%nat]) None] = 1%nat /\
  hydratedCount [mkUnit (Some [1%nat]) None]
  <> length (results (cancelledOnSecondPage [1; 2]) tt).
Proof.
  split; [reflexivity|]. split; [|split; [reflexivity|]].
  - intros es i k pk. exists k. reflexivity.
  - split; [vm_compute; reflexivity|]. split; [reflexivity|]. vm_compute. lia.
Qed.

Section DefaultLimit.

Context {Key Entity QuerySpec : Type}.

Implicit Types (w : World Key Entity QuerySpec) (o : Options Key Entity QuerySpec)
  (q : QuerySpec).




End DefaultLimit.



